(** * BinaryMatrix: an N-dimensional boolean matrix over a packed bit buffer

    A shallow embedding of [src/BinaryMatrix.ts] (package
    [@hookun/binary-matrix]) together with the properties its
    specification states about it.

    JavaScript numbers are IEEE doubles.  The quantities handled here
    (extents, indices, offsets, run lengths) are integers, modelled in [Z],
    which is exact as long as they stay below 2 ** 53.  One expression of
    the class leaves that range on small inputs: [2 ** bitLength - 1],
    which [decode] builds for a run of set bits.  It is modelled with its
    rounding ([allOnes]): exact up to 53 bits, [2 ** bitLength] from 54
    bits on.

    An [ArrayBuffer] is a mutable object: the class clones it
    ([buffer.slice(0)]) and then writes into the clone in place.  The model
    keeps that visible: buffers live in a store, a matrix holds a
    reference, and every operation that allocates or writes is a state
    transformer on the store. *)

From Stdlib Require Import ZArith Lia String Ascii.
From Stdlib.Strings Require Byte.
From stdpp Require Import base list numbers.
From Stdlib Require Sorted.

Local Open Scope Z_scope.

(** ** Outcomes and the store *)

Inductive exn : Type :=
| TypeError
| RangeError.

(** What a call can do: return normally, throw, drive one of the external
    collaborators outside the domain its interface describes (what happens
    then is not known), or still be running when the recursion budget of
    the model is used up. *)
Inductive outcome (A : Type) : Type :=
| Ret (a : A)
| Throw (e : exn)
| Unspecified
| OutOfFuel.

Arguments Ret {A} a.
Arguments Throw {A} e.
Arguments Unspecified {A}.
Arguments OutOfFuel {A}.

(** The contents of an [ArrayBuffer], as the sequence of its bits in
    storage order.  [Size] and [Indices] are arrays of numbers. *)
Abbreviation Buffer := (list bool).
Abbreviation ref := nat.
Abbreviation heap := (list Buffer).
Abbreviation Size := (list Z).
Abbreviation Indices := (list Z).

(** Computations that only read the store, and computations that may
    allocate or write. *)
Definition Rd (A : Type) : Type := heap → outcome A.
Definition St (A : Type) : Type := heap → outcome (A * heap).

Definition ret {A} (a : A) : St A := λ h, Ret (a, h).

Definition bind {A B} (m : St A) (k : A → St B) : St B :=
  λ h, match m h with
       | Ret (a, h') => k a h'
       | Throw e => Throw e
       | Unspecified => Unspecified
       | OutOfFuel => OutOfFuel
       end.

Definition rd {A} (m : Rd A) : St A :=
  λ h, match m h with
       | Ret a => Ret (a, h)
       | Throw e => Throw e
       | Unspecified => Unspecified
       | OutOfFuel => OutOfFuel
       end.

Definition fail {A} : St A := λ _, Unspecified.

Notation "'let*' x := m 'in' k" := (bind m (λ x, k))
  (at level 10, x pattern, m at level 100, k at level 200).
Notation "m ;; k" := (bind m (λ _, k))
  (at level 100, k at level 200, right associativity).

(** A [for] loop over a known sequence of values. *)
Fixpoint forEach {A} (l : list A) (body : A → St unit) : St unit :=
  match l with
  | [] => ret tt
  | a :: l' => body a;; forEach l' body
  end.

Definition alloc (b : Buffer) : St ref := λ h, Ret (length h, h ++ [b]).

(** [ArrayBuffer.prototype.slice(0)]: a fresh buffer with the same contents. *)
Definition slice (r : ref) : St ref :=
  λ h, match h !! r with
       | Some b => alloc b h
       | None => Unspecified
       end.

(** ** The bit-buffer primitive ([@hookun/bitbybit]) *)

Module bitbybit.

(** Modelled from the spec: the package [@hookun/bitbybit] is an external
    collaborator, described as a bit-buffer primitive that allocates by bit
    count, gets and sets a bit by offset, iterates all bits in storage
    order, iterates the offsets matching a given state within a range,
    extracts alternating run lengths over a range, and offers a sequential
    writer appending N bits.  Storage is byte-padded.  What the primitive
    does at an offset outside its storage is not described: the model
    answers [Unspecified] there. *)

Definition storageBits (bitLength : Z) : nat := (8 * Z.to_nat ((bitLength + 7) / 8))%nat.

Definition createBufferFromBitLength (bitLength : Z) : St ref :=
  if bitLength <? 0 then fail
  else alloc (replicate (storageBits bitLength) false).

Definition getBit (buffer : ref) (bitOffset : Z) : Rd bool :=
  λ h, match h !! buffer with
       | Some b =>
           if bitOffset <? 0 then Unspecified
           else match b !! Z.to_nat bitOffset with
                | Some bit => Ret bit
                | None => Unspecified
                end
       | None => Unspecified
       end.

Definition setBit (buffer : ref) (bitOffset : Z) (value : bool) : St unit :=
  λ h, match h !! buffer with
       | Some b =>
           if (bitOffset <? 0) || (Z.of_nat (length b) <=? bitOffset) then Unspecified
           else Ret (tt, <[buffer := <[Z.to_nat bitOffset := value]> b]> h)
       | None => Unspecified
       end.

(** The generator [listBit(buffer)], resumed for the bit at [bitOffset]:
    [None] once the storage is exhausted. *)
Definition listBit (buffer : ref) (bitOffset : nat) (h : heap) : option bool :=
  match h !! buffer with
  | Some b => b !! bitOffset
  | None => None
  end.

(** [listBitHasState(buffer, state, start, end)]: the offsets in
    [[start, end)] whose bit equals [state], in increasing order. *)
Definition listBitHasState (buffer : ref) (state : bool) (start end_ : Z) : Rd (list Z) :=
  λ h, match h !! buffer with
       | Some b =>
           if (start <? 0) || (Z.of_nat (length b) <? end_) then Unspecified
           else Ret (filter (λ o, default false (b !! Z.to_nat o) = state)
                            (map (λ k, start + Z.of_nat k) (seq 0 (Z.to_nat (end_ - start)))))
       | None => Unspecified
       end.

(** [runLength(buffer, start, end)]: alternating run lengths over the range,
    the first one counting 0-bits (it is 0 when the range starts with a 1). *)
Fixpoint runs (state : bool) (count : Z) (bits : list bool) : list Z :=
  match bits with
  | [] => [count]
  | bit :: bits' =>
      if Bool.eqb bit state then runs state (count + 1) bits'
      else count :: runs bit 1 bits'
  end.

Definition runLength (buffer : ref) (start end_ : Z) : Rd (list Z) :=
  λ h, match h !! buffer with
       | Some b =>
           if (start <? 0) || (Z.of_nat (length b) <? end_) then Unspecified
           else Ret (runs false 0 (take (Z.to_nat (end_ - start)) (drop (Z.to_nat start) b)))
       | None => Unspecified
       end.

(** [BitWriter]: a cursor over a buffer; [write(value, bitLength)] appends
    the [bitLength] low-order binary digits of [value], most significant
    first, and [end()] hands the buffer back. *)
Record BitWriter : Type := mkWriter { target : ref; cursor : Z }.

Definition newBitWriter (buffer : ref) : BitWriter := mkWriter buffer 0.

Definition write (w : BitWriter) (value bitLength : Z) : St BitWriter :=
  if bitLength <? 0 then fail
  else
    forEach (seq 0 (Z.to_nat bitLength))
      (λ j, setBit (target w) (cursor w + Z.of_nat j)
                   (Z.testbit value (bitLength - 1 - Z.of_nat j)));;
    ret (mkWriter (target w) (cursor w + bitLength)).

Definition end_ (w : BitWriter) : ref := target w.

End bitbybit.

(** ** Addressing and expansion planning *)

(** Modelled from the spec: [src/sizeToBitLength.ts] is not part of the
    sources at hand; the spec gives totalBits(Size) = Π Size[d]. *)
Definition sizeToBitLength (size : Size) : Z := foldr Z.mul 1 size.

(** Modelled from the spec: [src/indicesToOffset.ts] is not part of the
    sources at hand; the spec gives the mixed-radix weighted sum
    Σ_d Indices[d] · Π_{k<d} Size[k], dimension 0 varying fastest, with
    "Indices in range" as a precondition (so nothing is checked). *)
Fixpoint offsetFrom (weight : Z) (size : Size) (indices : Indices) : Z :=
  match size, indices with
  | s :: size', i :: indices' => i * weight + offsetFrom (weight * s) size' indices'
  | _, _ => 0
  end.

Definition indicesToOffset (size : Size) (indices : Indices) : Z :=
  offsetFrom 1 size indices.

(** Modelled from the spec: [src/offsetToIndices.ts] is not part of the
    sources at hand; the spec gives the inverse by successive modulo and
    divide by each Size[d] in dimension order. *)
Fixpoint offsetToIndices (size : Size) (offset : Z) : Indices :=
  match size with
  | [] => []
  | s :: size' => offset `mod` s :: offsetToIndices size' (offset `div` s)
  end.

Module Expansion.
Record t : Type := mk { size : Size; pos : Indices }.
End Expansion.

(** Modelled from the spec: [src/checkExpansion.ts] is not part of the
    sources at hand.  Per dimension d the spec requires growth when
    Indices[d] < 0 or Indices[d] ≥ Size[d], and gives
    low[d] = min(0, Indices[d]), high[d] = max(Size[d]-1, Indices[d]),
    newSize[d] = high[d]-low[d]+1 and originShift[d] = -low[d]; the result
    is none when no dimension needs a change. *)
Definition required (s i : Z) : bool := (i <? 0) || (s <=? i).
Definition low (i : Z) : Z := Z.min 0 i.
Definition high (s i : Z) : Z := Z.max (s - 1) i.

Definition checkExpansion (size : Size) (indices : Indices) : option Expansion.t :=
  if existsb (λ si, required si.1 si.2) (zip size indices)
  then Some (Expansion.mk (zip_with (λ s i, high s i - low i + 1) size indices)
                          (map (λ i, - low i) indices))
  else None.

(** ** The class *)

Record BinaryMatrix : Type := mkMatrix { size : Size; buffer : ref }.

(** [new BinaryMatrix(size)]: the default buffer is allocated from the size. *)
Definition new (size : Size) : St BinaryMatrix :=
  let* buffer := bitbybit.createBufferFromBitLength (sizeToBitLength size) in
  ret (mkMatrix size buffer).

(** The getter caches [sizeToBitLength(this.size)]; [size] is read-only, so
    the cache never changes the value returned. *)
Definition bitLength (this : BinaryMatrix) : Z := sizeToBitLength (size this).

(** [new Array(dimension)] throws a RangeError unless [dimension] is a valid
    array length. *)
Definition fromDimension (dimension : Z) : St BinaryMatrix :=
  if (dimension <? 0) || (2 ^ 32 <=? dimension) then λ _, Throw RangeError
  else new (replicate (Z.to_nat dimension) 0).

Definition fromSize (size : Size) : St BinaryMatrix := new size.

(** [row[columnIndex] !== '0']: a column past the end of the row reads
    [undefined], which differs from ['0']. *)
Definition isSet (row : string) (columnIndex : nat) : bool :=
  match String.get columnIndex row with
  | Some c => negb (Ascii.eqb c "0"%char)
  | None => true
  end.

Definition fromString (rows : list string) : St BinaryMatrix :=
  match rows with
  | [] => λ _, Throw TypeError
  | row0 :: _ =>
      let rowCount := length rows in
      let columnCount := String.length row0 in
      let size : Size := [Z.of_nat columnCount; Z.of_nat rowCount] in
      let* buffer := bitbybit.createBufferFromBitLength (sizeToBitLength size) in
      forEach (seq 0 rowCount) (λ rowIndex,
        let row := default EmptyString (rows !! rowIndex) in
        let bitOffset := Z.of_nat columnCount * Z.of_nat rowIndex in
        forEach (seq 0 columnCount) (λ columnIndex,
          if isSet row columnIndex
          then bitbybit.setBit buffer (bitOffset + Z.of_nat columnIndex) true
          else ret tt));;
      ret (mkMatrix size buffer)
  end.

Definition get (this : BinaryMatrix) (indices : Indices) : Rd bool :=
  bitbybit.getBit (buffer this) (indicesToOffset (size this) indices).

Definition setInternalBit (this : BinaryMatrix) (indices : Indices) (state : bool)
  : St BinaryMatrix :=
  let* buffer := slice (buffer this) in
  bitbybit.setBit buffer (indicesToOffset (size this) indices) state;;
  ret (mkMatrix (size this) buffer).

(** The generator [listBit()] of a matrix, resumed when [bitOffset] entries
    have been yielded: it takes the next bit of the underlying
    [listBit(this.buffer)] and pairs it with its indices; [None] when the
    underlying generator is exhausted.  After the yield the counter is
    incremented and the loop breaks when [bitLength <= bitOffset]. *)
Definition listBit_yield (this : BinaryMatrix) (bitOffset : nat) (h : heap)
  : option (bool * Indices) :=
  match bitbybit.listBit (buffer this) bitOffset h with
  | Some bit => Some (bit, offsetToIndices (size this) (Z.of_nat bitOffset))
  | None => None
  end.

Definition listBit_break (this : BinaryMatrix) (bitOffset : nat) : bool :=
  bitLength this <=? Z.of_nat bitOffset.

(** The entries one traversal yields when the store does not change
    meanwhile.  [n] bounds the number of resumptions; the storage of a
    buffer never changes its length, so one more than that length is
    enough. *)
Fixpoint listBit_collect (n : nat) (this : BinaryMatrix) (bitOffset : nat) (h : heap)
  : list (bool * Indices) :=
  match n with
  | O => []
  | S n' =>
      match listBit_yield this bitOffset h with
      | None => []
      | Some entry =>
          entry :: (if listBit_break this (S bitOffset) then []
                    else listBit_collect n' this (S bitOffset) h)
      end
  end.

Definition storageOf (r : ref) (h : heap) : nat := length (default [] (h !! r)).

Definition listBit (this : BinaryMatrix) : Rd (list (bool * Indices)) :=
  λ h, Ret (listBit_collect (S (storageOf (buffer this) h)) this 0 h).

(** [for (const entry of patch.listBit()) body]: the generator is resumed
    between two runs of the body, on the store the body has left. *)
Fixpoint forListBit (n : nat) (patch : BinaryMatrix) (bitOffset : nat)
  (body : bool * Indices → St unit) : St unit :=
  match n with
  | O => λ _, OutOfFuel
  | S n' =>
      λ h, match listBit_yield patch bitOffset h with
           | None => Ret (tt, h)
           | Some entry =>
               (body entry;;
                if listBit_break patch (S bitOffset) then ret tt
                else forListBit n' patch (S bitOffset) body) h
           end
  end.

(** [indices.map((index, dimension) => index + pos[dimension])]: a missing
    [pos[dimension]] makes the sum NaN, and the buffer is then asked for
    the bit at NaN. *)
Definition translate (indices pos : Indices) : option Indices :=
  if (length indices <=? length pos)%nat then Some (zip_with Z.add indices pos) else None.

(** The body of the loop of [paste], for one entry of the patch. *)
Definition pasteCell (size : Size) (buffer : ref) (pos : Indices) (entry : bool * Indices)
  : St unit :=
  let '(bit, indices) := entry in
  match translate indices pos with
  | None => fail
  | Some sourceIndices =>
      let bitOffset := indicesToOffset size sourceIndices in
      let* currentBit := rd (bitbybit.getBit buffer bitOffset) in
      if negb (Bool.eqb currentBit bit)
      then bitbybit.setBit buffer bitOffset bit
      else ret tt
  end.

Definition paste (this patch : BinaryMatrix) (pos : Indices) : St BinaryMatrix :=
  let patchBuffer := buffer patch in
  let size := size this in
  let* buffer := slice (buffer this) in
  (λ h, forListBit (S (storageOf patchBuffer h)) patch 0 (pasteCell size buffer pos) h);;
  ret (mkMatrix size buffer).

Definition setExternalBit (set : BinaryMatrix → Indices → bool → St BinaryMatrix)
  (this : BinaryMatrix) (expansion : Expansion.t) (indices : Indices) (state : bool)
  : St BinaryMatrix :=
  let* fresh := new (Expansion.size expansion) in
  let* grown := paste fresh this (Expansion.pos expansion) in
  set grown indices state.

(** [set] and [setExternalBit] call each other; [fuel] bounds the number of
    nested calls of [set]. *)
Fixpoint set (fuel : nat) (this : BinaryMatrix) (indices : Indices) (state : bool)
  : St BinaryMatrix :=
  match fuel with
  | O => λ _, OutOfFuel
  | S fuel' =>
      match checkExpansion (size this) indices with
      | Some expansion => setExternalBit (set fuel') this expansion indices state
      | None => setInternalBit this indices state
      end
  end.

(** The method [list]; the plain name is that of the type of lists. *)
Definition list_ (this : BinaryMatrix) (state : bool) : Rd (list Indices) :=
  λ h, match bitbybit.listBitHasState (buffer this) state 0 (bitLength this) h with
       | Ret offsets => Ret (map (offsetToIndices (size this)) offsets)
       | Throw e => Throw e
       | Unspecified => Unspecified
       | OutOfFuel => OutOfFuel
       end.

(** Modelled from the spec: [src/isSame.ts] is not part of the sources at
    hand; the spec calls two matrices equal iff they have identical Size
    and the identical bit value at every Indices. *)
Definition allIndices (size : Size) : list Indices :=
  map (λ k, offsetToIndices size (Z.of_nat k)) (seq 0 (Z.to_nat (sizeToBitLength size))).

Definition sameBit (a b : BinaryMatrix) (h : heap) (indices : Indices) : bool :=
  match get a indices h, get b indices h with
  | Ret x, Ret y => Bool.eqb x y
  | _, _ => false
  end.

Definition isSame (a b : BinaryMatrix) : Rd bool :=
  λ h, Ret (bool_decide (size a = size b) && forallb (sameBit a b h) (allIndices (size a))).

Definition isSameAs (this anotherMatrix : BinaryMatrix) : Rd bool :=
  isSame this anotherMatrix.

(** ** The wire format *)

Abbreviation bytes := (list Byte.byte).

(** Modelled from the spec: the package [@hookun/vlq] is an external
    collaborator, described as a variable-length integer codec that encodes
    a sequence of non-negative integers to bytes and decodes bytes back
    into a sequence, consumed one integer at a time.  Only that contract is
    used: the class is the interface, and [varint] below is one codec that
    meets it. *)
Class VlqCodec : Type := {
  vlq_encode : list Z → bytes;
  vlq_decode : bytes → list Z;
  vlq_decode_encode : ∀ data, Forall (λ n, 0 ≤ n) data → vlq_decode (vlq_encode data) = data
}.

Section Wire.
Context {codec : VlqCodec}.

(** The methods [encode] and [decode]; the functions of the same names that
    the source imports from the codec are [vlq_encode] and [vlq_decode]. *)

Definition encode (this : BinaryMatrix) : Rd bytes :=
  λ h, match bitbybit.runLength (buffer this) 0 (bitLength this) h with
       | Ret runLengths =>
           Ret (vlq_encode (Z.of_nat (length (size this)) :: size this ++ runLengths))
       | Throw e => Throw e
       | Unspecified => Unspecified
       | OutOfFuel => OutOfFuel
       end.

(** [for (dimension = 0; dimension < dimensionCount; dimension++)
    size[dimension] = decoder.next().value]; an exhausted decoder hands out
    [undefined], which then reaches [sizeToBitLength] and the allocator. *)
Fixpoint readSize (dimensionCount : nat) (decoder : list Z) : option (Size * list Z) :=
  match dimensionCount with
  | O => Some ([], decoder)
  | S n =>
      match decoder with
      | [] => None
      | extent :: decoder' =>
          match readSize n decoder' with
          | Some (size, rest) => Some (extent :: size, rest)
          | None => None
          end
      end
  end.

(** The double [2 ** bitLength - 1].  Up to 53 bits it is the integer of
    that many binary ones.  From 54 bits on the integer needs more than
    the 53 significant bits of a double and the subtraction rounds back to
    [2 ** bitLength] (at 54 bits a tie, resolved to the even significand).
    Above 1023 the power is [Infinity], and for a negative exponent the
    result is a fraction: [None], since the writer's contract covers
    integers only. *)
Definition allOnes (bitLength : Z) : option Z :=
  if (bitLength <? 0) || (1023 <? bitLength) then None
  else if bitLength <=? 53 then Some (2 ^ bitLength - 1)
  else Some (2 ^ bitLength).

(** The [while (bitOffset < totalBitLength)] loop.  Every turn consumes one
    integer of the decoder; on an exhausted decoder the writer is called
    with an [undefined] length. *)
Fixpoint decodeRuns (totalBitLength : Z) (writer : bitbybit.BitWriter) (state : bool)
  (bitOffset : Z) (decoder : list Z) {struct decoder} : St bitbybit.BitWriter :=
  if bitOffset <? totalBitLength then
    match decoder with
    | [] => fail
    | bitLength :: decoder' =>
        match (if state then allOnes bitLength else Some 0) with
        | Some value =>
            let* writer := bitbybit.write writer value bitLength in
            decodeRuns totalBitLength writer (negb state) (bitOffset + bitLength) decoder'
        | None => fail
        end
    end
  else ret writer.

Definition decode (encoded : bytes) : St BinaryMatrix :=
  match vlq_decode encoded with
  | [] => fail
  | dimensionCount :: decoder =>
      match readSize (Z.to_nat dimensionCount) decoder with
      | None => fail
      | Some (size, decoder) =>
          let totalBitLength := sizeToBitLength size in
          let* buffer := bitbybit.createBufferFromBitLength totalBitLength in
          let* writer := decodeRuns totalBitLength (bitbybit.newBitWriter buffer) false 0 decoder in
          ret (mkMatrix size (bitbybit.end_ writer))
      end
  end.

End Wire.

(** ** Predicates used in the statements *)

(** [indices] addresses a cell of a matrix of extents [size]. *)
Definition inRange (size : Size) (indices : Indices) : Prop :=
  Forall2 (λ s i, 0 ≤ i < s) size indices.

(** A matrix as the factories and operations produce it: non-negative
    extents and a live buffer of exactly the byte-padded storage that its
    bit count needs. *)
Definition valid (h : heap) (M : BinaryMatrix) : Prop :=
  Forall (λ s, 0 ≤ s) (size M) ∧
  ∃ b, h !! buffer M = Some b ∧ length b = bitbybit.storageBits (bitLength M).

(** Every buffer of [h] is still in [h'], with the same bits. *)
Definition preserved (h h' : heap) : Prop := h `prefix_of` h'.

(** The spec's equality of matrices, spelled out. *)
Definition sameCells (h : heap) (a b : BinaryMatrix) : Prop :=
  size a = size b ∧
  ∀ indices, inRange (size a) indices →
    ∃ bit, get a indices h = Ret bit ∧ get b indices h = Ret bit.

(** The bits a run-length stream stands for. *)
Fixpoint expand (state : bool) (runLengths : list Z) : list bool :=
  match runLengths with
  | [] => []
  | n :: rest => replicate (Z.to_nat n) state ++ expand (negb state) rest
  end.

(** The integers the decoding loop takes from the stream before its
    cursor reaches [totalBitLength]. *)
Fixpoint consumed (totalBitLength bitOffset : Z) (runLengths : list Z) : list Z :=
  if bitOffset <? totalBitLength then
    match runLengths with
    | [] => []
    | n :: rest => n :: consumed totalBitLength (bitOffset + n) rest
    end
  else [].

Definition sumZ (l : list Z) : Z := foldr Z.add 0 l.

(** The lengths of the runs of set bits in a stream of alternating runs
    whose first run has the given state. *)
Fixpoint setRuns (state : bool) (runLengths : list Z) : list Z :=
  match runLengths with
  | [] => []
  | n :: rest => (if state then [n] else []) ++ setRuns (negb state) rest
  end.

(** The runs of set bits of a matrix, in offset order: the lengths of its
    maximal stretches of consecutive set cells. *)
Definition setRunsOf (h : heap) (M : BinaryMatrix) : list Z :=
  setRuns false
    (bitbybit.runs false 0 (take (Z.to_nat (bitLength M)) (default [] (h !! buffer M)))).

(** A run of set bits short enough for [2 ** bitLength - 1] to be exact. *)
Definition exactRun (n : Z) : Prop := n ≤ 53.

(** Where entry [k] of the patch lands, and the contents of the clone after
    the entries [ks] have been written. *)
Definition landing (size psize : Size) (pos : Indices) (k : nat) : nat :=
  Z.to_nat (indicesToOffset size (zip_with Z.add (offsetToIndices psize (Z.of_nat k)) pos)).

Definition pasted (size psize : Size) (pos : Indices) (pb : Buffer) (d : Buffer)
  (ks : list nat) : Buffer :=
  foldl (λ acc k, <[landing size psize pos k := default false (pb !! k)]> acc) d ks.

(** The precondition of [paste]: every cell of the patch, translated by
    [pos], is a cell of the receiver. *)
Definition pasteFits (this patch : BinaryMatrix) (pos : Indices) : Prop :=
  ∀ indices, inRange (size patch) indices →
    ∃ target, translate indices pos = Some target ∧ inRange (size this) target.

(** ** A codec meeting the interface

    Little-endian base-128 groups, the high bit of a byte announcing that
    another group follows. *)
Definition byteOfZ (n : Z) : Byte.byte :=
  default Byte.x00 (Stdlib.Strings.Byte.of_N (Z.to_N n)).

Definition zOfByte (b : Byte.byte) : Z := Z.of_N (Stdlib.Strings.Byte.to_N b).

Fixpoint varintOf (fuel : nat) (n : Z) : bytes :=
  match fuel with
  | O => [byteOfZ n]
  | S fuel' =>
      if n <? 128 then [byteOfZ n]
      else byteOfZ (128 + n `mod` 128) :: varintOf fuel' (n `div` 128)
  end.

Definition varint_encode (data : list Z) : bytes :=
  flat_map (λ n, varintOf (Z.to_nat n) n) data.

Fixpoint varint_decode_from (acc weight : Z) (input : bytes) : list Z :=
  match input with
  | [] => []
  | b :: input' =>
      let v := zOfByte b in
      if v <? 128 then (acc + v * weight) :: varint_decode_from 0 1 input'
      else varint_decode_from (acc + (v - 128) * weight) (weight * 128) input'
  end.

Definition varint_decode (input : bytes) : list Z := varint_decode_from 0 1 input.

(** The buffer after the loops of [fromString] have handled the given
    columns of a row, and the given rows. *)
Definition markCell (columnCount : nat) (row : string) (rowIndex columnIndex : nat)
  (acc : Buffer) : Buffer :=
  if isSet row columnIndex then <[(columnCount * rowIndex + columnIndex)%nat := true]> acc
  else acc.

Definition markRow (columnCount : nat) (rows : list string) (rowIndex : nat) (acc : Buffer)
  : Buffer :=
  foldl (λ acc columnIndex,
           markCell columnCount (default EmptyString (rows !! rowIndex)) rowIndex columnIndex acc)
        acc (seq 0 columnCount).

(** ** Sample values

    The 2×2 matrix of [fromString(["01","10"])], a 1×1 patch holding a
    set bit, and the store that holds both. *)
Definition checker : BinaryMatrix := mkMatrix [2; 2] 0.
Definition dot : BinaryMatrix := mkMatrix [1; 1] 1.
Definition sampleStore : heap :=
  [[false; true; true; false; false; false; false; false];
   [true; false; false; false; false; false; false; false]].

(** A row of [n] characters '1', and the matrix that
    [fromString(["1".repeat(54)])] builds, with the store that holds it:
    one run of 54 set bits in a buffer of 7 bytes. *)
Definition onesRow (n : nat) : string := Nat.iter n (String "1"%char) EmptyString.
Definition longRun : BinaryMatrix := mkMatrix [54; 1] 0.
Definition longRunStore : heap := [replicate 54 true ++ replicate 2 false].

(** The offsets [list] hands to [offsetToIndices]: those below the bit
    count whose bit equals [state], in the order [listBitHasState] finds
    them. *)
Definition listedOffsets (b : Buffer) (state : bool) (bitLength : Z) : list Z :=
  filter (λ o, default false (b !! Z.to_nat o) = state)
         (map (λ k, 0 + Z.of_nat k) (seq 0 (Z.to_nat (bitLength - 0)))).

(** The getter [bitLength] with its cache: the private field [_bitLength]
    starts undefined, and a falsy cached value (undefined or 0) makes the
    getter compute and store [sizeToBitLength(this.size)] again.  The
    result is the value returned and the field afterwards. *)
Definition bitLengthGetter (cache : option Z) (size : Size) : Z * option Z :=
  let recompute := (sizeToBitLength size, Some (sizeToBitLength size)) in
  match cache with
  | Some cached => if cached =? 0 then recompute else (cached, Some cached)
  | None => recompute
  end.

(** The values successive reads of the getter return, [sizes] giving what
    the array [this.size] holds at each read (the field cannot be assigned
    again; the array it refers to can still be written to). *)
Fixpoint bitLengthReads (cache : option Z) (sizes : list Size) : list Z :=
  match sizes with
  | [] => []
  | size :: sizes' =>
      let '(value, cache') := bitLengthGetter cache size in
      value :: bitLengthReads cache' sizes'
  end.

(** * Properties *)

(** ** Arithmetic of addresses *)

Section Addressing.

Lemma sizeToBitLength_cons s size :
  sizeToBitLength (s :: size) = s * sizeToBitLength size.
Proof. reflexivity. Qed.

Lemma sizeToBitLength_nonneg size :
  Forall (λ s, 0 ≤ s) size → 0 ≤ sizeToBitLength size.
Proof.
  induction 1 as [|s size Hs _ IH]; [cbn; lia|].
  rewrite sizeToBitLength_cons. now apply Z.mul_nonneg_nonneg.
Qed.

Lemma offsetFrom_weight w size indices :
  offsetFrom w size indices = w * offsetFrom 1 size indices.
Proof.
  revert w indices. induction size as [|s size IH]; intros w [|i indices]; cbn; try lia.
  rewrite (IH (w * s)), (IH (1 * s)). ring.
Qed.

Lemma indicesToOffset_cons s size i indices :
  indicesToOffset (s :: size) (i :: indices) = i + s * indicesToOffset size indices.
Proof.
  unfold indicesToOffset. cbn. rewrite (offsetFrom_weight (1 * s)). ring.
Qed.

Lemma inRange_length size indices : inRange size indices → length indices = length size.
Proof. intros H. symmetry. eapply Forall2_length, H. Qed.

Lemma inRange_offset size indices :
  inRange size indices →
  0 ≤ indicesToOffset size indices < sizeToBitLength size.
Proof.
  induction 1 as [|s i size indices Hi _ IH]; [cbn; lia|].
  rewrite indicesToOffset_cons, sizeToBitLength_cons. nia.
Qed.

Lemma offsetToIndices_length size o : length (offsetToIndices size o) = length size.
Proof. revert o. induction size as [|s size IH]; intros o; cbn; [done|]. now rewrite IH. Qed.

Lemma offsetToIndices_inRange size o :
  Forall (λ s, 0 ≤ s) size → 0 ≤ o < sizeToBitLength size →
  inRange size (offsetToIndices size o).
Proof.
  intros Hs. revert o. induction Hs as [|s size Hs _ IH]; intros o Ho; cbn; [constructor|].
  rewrite sizeToBitLength_cons in Ho.
  assert (0 < s) by (destruct (Z.eq_dec s 0); [subst; lia | lia]).
  constructor.
  - apply Z.mod_pos_bound. lia.
  - apply IH. split; [apply Z.div_pos; lia|].
    apply Z.div_lt_upper_bound; lia.
Qed.

Lemma indicesToOffset_offsetToIndices size o :
  Forall (λ s, 0 ≤ s) size → 0 ≤ o < sizeToBitLength size →
  indicesToOffset size (offsetToIndices size o) = o.
Proof.
  intros Hs. revert o. induction Hs as [|s size Hs _ IH]; intros o Ho.
  - cbn in Ho. unfold indicesToOffset. cbn. lia.
  - rewrite sizeToBitLength_cons in Ho. simpl offsetToIndices.
    assert (0 < s) by (destruct (Z.eq_dec s 0); [subst; lia | lia]).
    rewrite indicesToOffset_cons, IH.
    + rewrite (Z.div_mod o s) at 3 by lia. lia.
    + split; [apply Z.div_pos; lia|]. apply Z.div_lt_upper_bound; lia.
Qed.

Lemma offsetToIndices_indicesToOffset size indices :
  inRange size indices →
  offsetToIndices size (indicesToOffset size indices) = indices.
Proof.
  induction 1 as [|s i size indices Hi _ IH]; [done|].
  rewrite indicesToOffset_cons. simpl offsetToIndices. f_equal.
  - rewrite (Z.mul_comm s), Z.mod_add by lia. apply Z.mod_small. lia.
  - rewrite (Z.mul_comm s), Z.div_add by lia.
    rewrite (Z.div_small i s) by lia. now rewrite Z.add_0_l.
Qed.

Lemma indicesToOffset_inj size a b :
  inRange size a → inRange size b →
  indicesToOffset size a = indicesToOffset size b → a = b.
Proof.
  intros Ha Hb E.
  rewrite <- (offsetToIndices_indicesToOffset size a Ha).
  rewrite <- (offsetToIndices_indicesToOffset size b Hb). now rewrite E.
Qed.

End Addressing.

(** ** The store and the bit-buffer primitive *)

Section Store.

Lemma bind_Ret {A B} (m : St A) (k : A → St B) h a h' :
  m h = Ret (a, h') → bind m k h = k a h'.
Proof. unfold bind. now intros ->. Qed.

Lemma rd_Ret {A} (m : Rd A) h a : m h = Ret a → rd m h = Ret (a, h).
Proof. unfold rd. now intros ->. Qed.

Lemma preserved_trans h1 h2 h3 : preserved h1 h2 → preserved h2 h3 → preserved h1 h3.
Proof. unfold preserved. intros. now transitivity h2. Qed.

Lemma preserved_snoc h b : preserved h (h ++ [b]).
Proof. now exists [b]. Qed.

Lemma preserved_lookup h h' r b : preserved h h' → h !! r = Some b → h' !! r = Some b.
Proof. intros Hp Hl. eapply prefix_lookup_Some; eauto. Qed.

Lemma lookup_fresh (h : heap) b : (h ++ [b]) !! length h = Some b.
Proof. now apply list_lookup_middle. Qed.

Lemma insert_fresh (h : heap) b b' : <[length h := b']> (h ++ [b]) = h ++ [b'].
Proof.
  rewrite <- (Nat.add_0_r (length h)). now rewrite insert_app_r.
Qed.

Lemma storageBits_ge n : 0 ≤ n → n ≤ Z.of_nat (bitbybit.storageBits n).
Proof.
  intros Hn. unfold bitbybit.storageBits.
  rewrite Nat2Z.inj_mul, Z2Nat.id by (apply Z.div_pos; lia).
  change (Z.of_nat 8) with 8.
  pose proof (Z.div_mod (n + 7) 8 ltac:(lia)).
  pose proof (Z.mod_pos_bound (n + 7) 8 ltac:(lia)). lia.
Qed.

Lemma getBit_Ret r o h b bit :
  h !! r = Some b → 0 ≤ o → b !! Z.to_nat o = Some bit →
  bitbybit.getBit r o h = Ret bit.
Proof.
  intros Hr Ho Hb. unfold bitbybit.getBit. rewrite Hr.
  destruct (Z.ltb_spec o 0); [lia|]. now rewrite Hb.
Qed.

Lemma setBit_Ret r o v h b :
  h !! r = Some b → 0 ≤ o < Z.of_nat (length b) →
  bitbybit.setBit r o v h = Ret (tt, <[r := <[Z.to_nat o := v]> b]> h).
Proof.
  intros Hr Ho. unfold bitbybit.setBit. rewrite Hr.
  destruct (Z.ltb_spec o 0); [lia|].
  destruct (Z.leb_spec (Z.of_nat (length b)) o); [lia|]. reflexivity.
Qed.

Lemma slice_Ret r h b : h !! r = Some b → slice r h = Ret (length h, h ++ [b]).
Proof. intros Hr. unfold slice. now rewrite Hr. Qed.

Lemma createBuffer_Ret n h :
  0 ≤ n →
  bitbybit.createBufferFromBitLength n h
  = Ret (length h, h ++ [replicate (bitbybit.storageBits n) false]).
Proof.
  intros Hn. unfold bitbybit.createBufferFromBitLength.
  destruct (Z.ltb_spec n 0); [lia|]. reflexivity.
Qed.

Lemma new_Ret size h :
  Forall (λ s, 0 ≤ s) size →
  new size h = Ret (mkMatrix size (length h),
                    h ++ [replicate (bitbybit.storageBits (sizeToBitLength size)) false]).
Proof.
  intros Hs. unfold new.
  erewrite bind_Ret by (apply createBuffer_Ret, sizeToBitLength_nonneg, Hs).
  reflexivity.
Qed.

Lemma valid_preserved h h' M : preserved h h' → valid h M → valid h' M.
Proof.
  intros Hp [Hs (b & Hb & Hl)]. split; [done|].
  exists b. split; [|done]. eapply preserved_lookup; eauto.
Qed.

Lemma get_preserved h h' M indices bit :
  preserved h h' → get M indices h = Ret bit → get M indices h' = Ret bit.
Proof.
  unfold get, bitbybit.getBit. intros Hp.
  destruct (h !! buffer M) as [b|] eqn:Hb; [|done].
  now rewrite (preserved_lookup _ _ _ _ Hp Hb).
Qed.

(** What [get] returns on a valid matrix for indices in range. *)
Lemma get_inRange h M b indices :
  Forall (λ s, 0 ≤ s) (size M) →
  h !! buffer M = Some b → (Z.to_nat (bitLength M) ≤ length b)%nat →
  inRange (size M) indices →
  ∃ bit, b !! Z.to_nat (indicesToOffset (size M) indices) = Some bit ∧
         get M indices h = Ret bit.
Proof.
  intros Hs Hb Hl Hi.
  pose proof (inRange_offset _ _ Hi) as Ho. unfold bitLength in Hl.
  destruct (lookup_lt_is_Some_2 b (Z.to_nat (indicesToOffset (size M) indices)))
    as [bit Hbit]; [lia|].
  exists bit. split; [done|]. eapply getBit_Ret; eauto. lia.
Qed.

End Store.

(** ** The loop of [paste] *)

Section Paste.

Lemma pasted_length size psize pos pb d ks :
  length (pasted size psize pos pb d ks) = length d.
Proof.
  revert d. induction ks as [|k ks IH]; intros d; [done|].
  unfold pasted in *. cbn. now rewrite IH, length_insert.
Qed.

Lemma pasted_lookup_other size psize pos pb d ks o :
  (∀ k, k ∈ ks → landing size psize pos k ≠ o) →
  pasted size psize pos pb d ks !! o = d !! o.
Proof.
  revert d. induction ks as [|k ks IH]; intros d Hks; [done|].
  unfold pasted in *. cbn. rewrite IH.
  - apply list_lookup_insert_ne, Hks. left.
  - intros j Hj. apply Hks. now right.
Qed.

Lemma pasted_lookup_landing size psize pos pb d ks k :
  k ∈ ks →
  (∀ i j, i ∈ ks → j ∈ ks → landing size psize pos i = landing size psize pos j → i = j) →
  (landing size psize pos k < length d)%nat →
  pasted size psize pos pb d ks !! landing size psize pos k = Some (default false (pb !! k)).
Proof.
  revert d. induction ks as [|j ks IH]; intros d Hk Hinj Hlen; [now apply elem_of_nil in Hk|].
  change (pasted size psize pos pb d (j :: ks))
    with (pasted size psize pos pb (<[landing size psize pos j := default false (pb !! j)]> d) ks).
  destruct (decide (k ∈ ks)) as [Hin|Hnin].
  - apply IH; [done| |now rewrite length_insert].
    intros a b Ha Hb. apply Hinj; now right.
  - apply elem_of_cons in Hk as [->|]; [|done].
    rewrite pasted_lookup_other.
    + now apply list_lookup_insert_eq.
    + intros i Hi E. apply Hnin.
      rewrite <- (Hinj i j); [done|now right|left|done].
Qed.

Lemma listBit_break_spec patch k :
  0 ≤ bitLength patch →
  listBit_break patch k = bool_decide (Z.to_nat (bitLength patch) ≤ k)%nat.
Proof.
  intros H. unfold listBit_break.
  destruct (Z.leb_spec (bitLength patch) (Z.of_nat k));
    [rewrite bool_decide_eq_true_2|rewrite bool_decide_eq_false_2]; auto; lia.
Qed.

Lemma pasteCell_Ret size rd pos (h : heap) (d : Buffer) bit indices :
  h !! rd = Some d →
  (length indices ≤ length pos)%nat →
  0 ≤ indicesToOffset size (zip_with Z.add indices pos) < Z.of_nat (length d) →
  pasteCell size rd pos (bit, indices) h
  = Ret (tt, <[rd := <[Z.to_nat (indicesToOffset size (zip_with Z.add indices pos)) := bit]> d]> h).
Proof.
  intros Hd Hlen Ho. unfold pasteCell, translate.
  destruct (Nat.leb_spec (length indices) (length pos)); [|lia].
  set (o := indicesToOffset size (zip_with Z.add indices pos)) in *.
  destruct (lookup_lt_is_Some_2 d (Z.to_nat o)) as [cur Hcur]; [lia|].
  erewrite bind_Ret by (apply rd_Ret; eapply getBit_Ret; eauto; lia).
  destruct (Bool.eqb cur bit) eqn:E; cbn [negb].
  - apply Bool.eqb_prop in E. subst cur. unfold ret.
    rewrite (list_insert_id d _ _ Hcur). now rewrite (list_insert_id h _ _ Hd).
  - now apply setBit_Ret.
Qed.

Lemma forListBit_paste sz rd pos (patch : BinaryMatrix) (pb : Buffer) m :
  ∀ k fuel (h : heap) (d : Buffer),
    h !! buffer patch = Some pb → h !! rd = Some d → rd ≠ buffer patch →
    (k + S m = Z.to_nat (bitLength patch))%nat →
    (Z.to_nat (bitLength patch) ≤ length pb)%nat →
    (S m ≤ fuel)%nat →
    (length (size patch) ≤ length pos)%nat →
    (∀ j, (k ≤ j < Z.to_nat (bitLength patch))%nat →
       0 ≤ indicesToOffset sz (zip_with Z.add (offsetToIndices (size patch) (Z.of_nat j)) pos)
         < Z.of_nat (length d)) →
    forListBit fuel patch k (pasteCell sz rd pos) h
    = Ret (tt, <[rd := pasted sz (size patch) pos pb d (seq k (S m))]> h).
Proof.
  induction m as [|m IH]; intros k fuel h d Hpb Hd Hne HN Hlen Hfuel Hpos Hoff;
    (destruct fuel as [|fuel]; [lia|]).
  all: assert (Hk : (k < length pb)%nat) by lia.
  all: destruct (lookup_lt_is_Some_2 pb k Hk) as [bit Hbit].
  all: cbn [forListBit]; unfold listBit_yield, bitbybit.listBit; rewrite Hpb, Hbit.
  all: erewrite bind_Ret by
    (apply (pasteCell_Ret sz rd pos h d); [done|now rewrite offsetToIndices_length|apply Hoff; lia]).
  all: rewrite listBit_break_spec by lia.
  - rewrite bool_decide_eq_true_2 by lia.
    unfold ret, pasted, landing. cbn. now rewrite Hbit.
  - rewrite bool_decide_eq_false_2 by lia.
    assert (Hrd : (rd < length h)%nat) by (eapply lookup_lt_Some; eauto).
    erewrite IH; [| |now apply list_lookup_insert_eq| | | | | |]; try done; try lia.
    + rewrite list_insert_insert_eq. do 3 f_equal.
      unfold pasted, landing. cbn. now rewrite Hbit.
    + now rewrite list_lookup_insert_ne.
    + rewrite length_insert. intros j Hj. apply Hoff. lia.
Qed.

Lemma translate_Some indices pos target :
  translate indices pos = Some target →
  target = zip_with Z.add indices pos ∧ (length indices ≤ length pos)%nat.
Proof.
  unfold translate. destruct (Nat.leb_spec (length indices) (length pos)); [|done].
  intros [= <-]. done.
Qed.

Lemma valid_bitLength h M : valid h M → 0 ≤ bitLength M.
Proof. intros [Hs _]. now apply sizeToBitLength_nonneg. Qed.

Lemma valid_storage h M b :
  valid h M → h !! buffer M = Some b → (Z.to_nat (bitLength M) ≤ length b)%nat.
Proof.
  intros Hv Hb. pose proof (valid_bitLength _ _ Hv) as Hn.
  destruct Hv as [_ (b' & Hb' & Hl)]. rewrite Hb in Hb'. injection Hb' as <-.
  rewrite Hl. pose proof (storageBits_ge _ Hn). lia.
Qed.

(** [paste] returns: the receiver's buffer is cloned, the clone receives the
    patch, and nothing else in the store is touched. *)
Lemma paste_Ret h this patch pos d pb :
  valid h this → valid h patch → pasteFits this patch pos →
  h !! buffer this = Some d → h !! buffer patch = Some pb →
  paste this patch pos h
  = Ret (mkMatrix (size this) (length h),
         h ++ [pasted (size this) (size patch) pos pb d
                 (seq 0 (Z.to_nat (bitLength patch)))]).
Proof.
  intros Hthis Hpatch Hfit Hd Hpb. unfold paste.
  rewrite (bind_Ret _ _ _ _ _ (slice_Ret _ _ _ Hd)).
  pose proof (valid_bitLength _ _ Hpatch) as HN.
  pose proof (valid_storage _ _ _ Hpatch Hpb) as Hst.
  assert (Hpb' : (h ++ [d]) !! buffer patch = Some pb) by now apply lookup_app_l_Some.
  assert (Hso : storageOf (buffer patch) (h ++ [d]) = length pb)
    by (unfold storageOf; now rewrite Hpb').
  destruct (Z.to_nat (bitLength patch)) as [|m] eqn:Hm.
  - assert (pb = []) as ->.
    { destruct Hpatch as [_ (b' & Hb' & Hl)]. rewrite Hpb in Hb'. injection Hb' as <-.
      replace (bitLength patch) with 0 in Hl by lia. now apply nil_length_inv. }
    unfold bind at 1. rewrite Hso. cbn [length forListBit].
    unfold listBit_yield, bitbybit.listBit. rewrite Hpb'. cbn. reflexivity.
  - unfold bind at 1. rewrite Hso.
    assert (H0 : inRange (size patch) (offsetToIndices (size patch) (Z.of_nat 0))).
    { apply offsetToIndices_inRange; [apply Hpatch|]. unfold bitLength in *. lia. }
    destruct (Hfit _ H0) as (t0 & Ht0 & _). apply translate_Some in Ht0 as [_ Hlen0].
    rewrite offsetToIndices_length in Hlen0.
    rewrite (forListBit_paste (size this) (length h) pos patch pb m 0 _ _ d);
      try done; try lia.
    + unfold ret. now rewrite insert_fresh.
    + now apply list_lookup_middle.
    + apply lookup_lt_Some in Hpb. lia.
    + intros j Hj.
      assert (Hj' : inRange (size patch) (offsetToIndices (size patch) (Z.of_nat j))).
      { apply offsetToIndices_inRange; [apply Hpatch|]. unfold bitLength in *. lia. }
      destruct (Hfit _ Hj') as (t & Ht & Hin). apply translate_Some in Ht as [-> _].
      pose proof (inRange_offset _ _ Hin). pose proof (valid_storage _ _ _ Hthis Hd).
      unfold bitLength in *. lia.
Qed.

Lemma zip_with_add_inj (a b pos : Indices) :
  length a = length b → (length a ≤ length pos)%nat →
  zip_with Z.add a pos = zip_with Z.add b pos → a = b.
Proof.
  revert b pos. induction a as [|x a IH]; intros [|y b] [|p pos]; cbn; try done; try lia.
  intros [= Hl] Hle [= Hxy Hz]. f_equal; [lia|]. apply (IH b pos); [done|lia|done].
Qed.

Lemma landing_inRange this patch pos h k :
  valid h patch → pasteFits this patch pos → (k < Z.to_nat (bitLength patch))%nat →
  inRange (size patch) (offsetToIndices (size patch) (Z.of_nat k)) ∧
  translate (offsetToIndices (size patch) (Z.of_nat k)) pos
    = Some (zip_with Z.add (offsetToIndices (size patch) (Z.of_nat k)) pos) ∧
  inRange (size this) (zip_with Z.add (offsetToIndices (size patch) (Z.of_nat k)) pos).
Proof.
  intros Hpatch Hfit Hk.
  assert (Hin : inRange (size patch) (offsetToIndices (size patch) (Z.of_nat k))).
  { apply offsetToIndices_inRange; [apply Hpatch|]. unfold bitLength in *. lia. }
  destruct (Hfit _ Hin) as (t & Ht & Hrange).
  destruct (translate_Some _ _ _ Ht) as [-> _]. done.
Qed.

Lemma landing_inj this patch pos h i j :
  valid h patch → pasteFits this patch pos →
  (i < Z.to_nat (bitLength patch))%nat → (j < Z.to_nat (bitLength patch))%nat →
  landing (size this) (size patch) pos i = landing (size this) (size patch) pos j → i = j.
Proof.
  intros Hpatch Hfit Hi Hj E.
  destruct (landing_inRange this patch pos h i Hpatch Hfit Hi) as (Hpi & Hti & Hri).
  destruct (landing_inRange this patch pos h j Hpatch Hfit Hj) as (Hpj & Htj & Hrj).
  unfold landing in E.
  pose proof (inRange_offset _ _ Hri). pose proof (inRange_offset _ _ Hrj).
  apply Z2Nat.inj in E; [|lia|lia].
  apply indicesToOffset_inj in E; [|done|done].
  apply translate_Some in Hti as [_ Hlen].
  apply zip_with_add_inj in E; [| |done].
  - apply (f_equal (indicesToOffset (size patch))) in E.
    rewrite !indicesToOffset_offsetToIndices in E;
      try apply Hpatch; unfold bitLength in *; lia.
  - now rewrite !offsetToIndices_length.
Qed.

End Paste.

(** ** paste *)

Section PasteComposition.

Lemma valid_paste_result h this patch pos d pb :
  valid h this → h !! buffer this = Some d →
  valid (h ++ [pasted (size this) (size patch) pos pb d (seq 0 (Z.to_nat (bitLength patch)))])
        (mkMatrix (size this) (length h)).
Proof.
  intros Hthis Hd. split; [apply Hthis|]. cbn [size buffer].
  eexists. split; [apply lookup_fresh|]. rewrite pasted_length.
  destruct Hthis as [_ (b & Hb & Hl)]. rewrite Hd in Hb. now injection Hb as <-.
Qed.

(** The cells of the matrix [paste] returns under its precondition. *)
Lemma paste_cells h this patch pos d pb :
  valid h this → valid h patch → pasteFits this patch pos →
  h !! buffer this = Some d → h !! buffer patch = Some pb →
  let R := mkMatrix (size this) (length h) in
  let h' := h ++ [pasted (size this) (size patch) pos pb d
                    (seq 0 (Z.to_nat (bitLength patch)))] in
  (∀ indices target,
      inRange (size patch) indices → translate indices pos = Some target →
      ∃ bit, get patch indices h = Ret bit ∧ get R target h' = Ret bit) ∧
  (∀ indices,
      inRange (size this) indices →
      (∀ covered, inRange (size patch) covered → translate covered pos ≠ Some indices) →
      ∃ bit, get this indices h = Ret bit ∧ get R indices h' = Ret bit).
Proof.
  intros Hthis Hpatch Hfit Hd Hpb R h'.
  destruct (Hthis) as [Hs _]. destruct (Hpatch) as [Hps _].
  set (N := Z.to_nat (bitLength patch)) in *.
  set (d' := pasted (size this) (size patch) pos pb d (seq 0 N)) in *.
  pose proof (valid_paste_result h this patch pos d pb Hthis Hd) as Hvalid.
  assert (Hd' : h' !! length h = Some d') by apply lookup_fresh.
  split.
  - intros indices target Hin Ht.
    destruct (get_inRange h patch pb indices Hps Hpb
                (valid_storage _ _ _ Hpatch Hpb) Hin) as (bit & Hbit & Hget).
    exists bit. split; [done|].
    destruct (Hfit _ Hin) as (t & Ht' & Hrange). rewrite Ht in Ht'. injection Ht' as <-.
    pose proof (inRange_offset _ _ Hin) as Hoff.
    pose proof (inRange_offset _ _ Hrange) as Hoff'.
    set (k := Z.to_nat (indicesToOffset (size patch) indices)) in *.
    assert (Hk : (k < N)%nat) by (unfold k, N, bitLength; lia).
    assert (Hland : landing (size this) (size patch) pos k
                    = Z.to_nat (indicesToOffset (size this) target)).
    { unfold landing, k. rewrite Z2Nat.id by lia.
      rewrite offsetToIndices_indicesToOffset by done.
      now apply translate_Some in Ht as [-> _]. }
    unfold get; cbn [size buffer R]; eapply getBit_Ret; [exact Hd'|lia|].
    rewrite <- Hland. unfold d'. rewrite pasted_lookup_landing.
    + now rewrite Hbit.
    + apply elem_of_seq. lia.
    + intros i j Hi Hj. apply elem_of_seq in Hi, Hj.
      apply (landing_inj this patch pos h); [done|done|unfold N in *; lia..].
    + rewrite Hland. pose proof (valid_storage _ _ _ Hthis Hd). unfold bitLength in *. lia.
  - intros indices Hin Hother.
    destruct (get_inRange h this d indices Hs Hd
                (valid_storage _ _ _ Hthis Hd) Hin) as (bit & Hbit & Hget).
    exists bit. split; [done|].
    pose proof (inRange_offset _ _ Hin) as Hoff.
    unfold get; cbn [size buffer R]; eapply getBit_Ret; [exact Hd'|lia|].
    unfold d'. rewrite pasted_lookup_other; [done|].
    intros k Hk E. apply elem_of_seq in Hk.
    destruct (landing_inRange this patch pos h k Hpatch Hfit) as (Hpk & Htk & Hrk);
      [unfold N in *; lia|].
    unfold landing in E. pose proof (inRange_offset _ _ Hrk).
    apply Z2Nat.inj in E; [|lia|lia].
    apply indicesToOffset_inj in E; [|done|done].
    apply (Hother _ Hpk). now rewrite Htk, E.
Qed.

(** C9: under its precondition [paste] returns a matrix of the receiver's
    Size in which every translated cell of the patch holds the patch's bit
    and every cell not covered by the translated patch holds the
    receiver's bit; the store the call started from is preserved, so the
    receiver (like every other matrix) still reads as before. *)
Theorem paste_composition h this patch pos :
  valid h this → valid h patch → pasteFits this patch pos →
  ∃ R h',
    paste this patch pos h = Ret (R, h') ∧
    size R = size this ∧ valid h' R ∧
    (∀ indices target,
        inRange (size patch) indices → translate indices pos = Some target →
        ∃ bit, get patch indices h = Ret bit ∧ get R target h' = Ret bit) ∧
    (∀ indices,
        inRange (size this) indices →
        (∀ covered, inRange (size patch) covered → translate covered pos ≠ Some indices) →
        ∃ bit, get this indices h = Ret bit ∧ get R indices h' = Ret bit) ∧
    preserved h h' ∧
    (∀ indices, get this indices h' = get this indices h).
Proof.
  intros Hthis Hpatch Hfit.
  destruct (Hthis) as [_ (d & Hd & _)]. destruct (Hpatch) as [_ (pb & Hpb & _)].
  destruct (paste_cells h this patch pos d pb Hthis Hpatch Hfit Hd Hpb) as [Hin Hout].
  eexists _, _. split; [exact (paste_Ret h this patch pos d pb Hthis Hpatch Hfit Hd Hpb)|].
  split; [done|].
  split; [now apply valid_paste_result|]. split; [exact Hin|]. split; [exact Hout|].
  split; [apply preserved_snoc|].
  intros indices. unfold get, bitbybit.getBit.
  now rewrite (lookup_app_l_Some _ _ _ _ Hd), Hd.
Qed.

End PasteComposition.

(** ** Expansion planning *)

Section Planner.

Lemma required_false s i : required s i = false ↔ 0 ≤ i < s.
Proof.
  unfold required. rewrite orb_false_iff, Z.ltb_ge, Z.leb_gt. lia.
Qed.

Lemma needed_false size indices :
  length indices = length size →
  existsb (λ si, required si.1 si.2) (zip size indices) = false ↔ inRange size indices.
Proof.
  revert indices. induction size as [|s size IH]; intros [|i indices] Hl; try done.
  - split; [constructor|done].
  - cbn [zip zip_with existsb fst snd]. rewrite orb_false_iff, required_false, IH by (cbn in Hl; lia).
    split; [intros []; now constructor|]. now inversion 1.
Qed.

Lemma checkExpansion_inRange size indices :
  inRange size indices → checkExpansion size indices = None.
Proof.
  intros Hin. unfold checkExpansion.
  now rewrite (proj2 (needed_false size indices (inRange_length _ _ Hin)) Hin).
Qed.

Lemma checkExpansion_None size indices :
  length indices = length size → checkExpansion size indices = None → inRange size indices.
Proof.
  intros Hl. unfold checkExpansion.
  destruct (existsb _ _) eqn:E; [done|]. intros _. now apply needed_false.
Qed.

Lemma checkExpansion_Some size indices :
  length indices = length size → ¬ inRange size indices →
  checkExpansion size indices
  = Some (Expansion.mk (zip_with (λ s i, high s i - low i + 1) size indices)
                       (map (λ i, - low i) indices)).
Proof.
  intros Hl Hout. unfold checkExpansion.
  destruct (existsb _ _) eqn:E; [done|]. now apply needed_false in E.
Qed.

End Planner.

(** ** Equality of matrices *)

Section Same.

Lemma sameBit_true a b h indices :
  sameBit a b h indices = true ↔
  ∃ bit, get a indices h = Ret bit ∧ get b indices h = Ret bit.
Proof.
  unfold sameBit. split.
  - destruct (get a indices h) as [x| | |], (get b indices h) as [y| | |]; try done.
    intros E. apply Bool.eqb_prop in E. subst. eauto.
  - intros (bit & -> & ->). apply Bool.eqb_reflx.
Qed.

(** [isSame] decides the spec's equality. *)
Lemma isSame_sameCells a b h :
  Forall (λ s, 0 ≤ s) (size a) →
  isSame a b h = Ret true ↔ sameCells h a b.
Proof.
  intros Hs. unfold isSame, sameCells. split.
  - intros [= E]. apply andb_true_iff in E as [E1 E2].
    apply bool_decide_eq_true_1 in E1. split; [done|].
    intros indices Hin. apply sameBit_true.
    rewrite forallb_forall in E2. apply E2.
    pose proof (inRange_offset _ _ Hin) as Ho.
    unfold allIndices. apply in_map_iff.
    exists (Z.to_nat (indicesToOffset (size a) indices)). split.
    + rewrite Z2Nat.id by lia. now apply offsetToIndices_indicesToOffset.
    + apply in_seq. lia.
  - intros [E1 E2]. f_equal. apply andb_true_iff. split; [now apply bool_decide_eq_true_2|].
    apply forallb_forall. intros indices Hin. apply sameBit_true, E2.
    unfold allIndices in Hin. apply in_map_iff in Hin as (k & <- & Hk).
    apply in_seq in Hk. apply offsetToIndices_inRange; [done|lia].
Qed.

End Same.

(** ** set within the bounds *)

Section SetInternal.

Lemma setInternalBit_Ret h M d indices state :
  valid h M → h !! buffer M = Some d → inRange (size M) indices →
  setInternalBit M indices state h
  = Ret (mkMatrix (size M) (length h),
         h ++ [<[Z.to_nat (indicesToOffset (size M) indices) := state]> d]).
Proof.
  intros Hv Hd Hin. unfold setInternalBit.
  rewrite (bind_Ret _ _ _ _ _ (slice_Ret _ _ _ Hd)).
  pose proof (inRange_offset _ _ Hin). pose proof (valid_storage _ _ _ Hv Hd).
  erewrite bind_Ret.
  2:{ eapply setBit_Ret; [apply lookup_fresh|]. unfold bitLength in *. lia. }
  unfold ret. now rewrite insert_fresh.
Qed.

Lemma set_S fuel this indices state :
  set (S fuel) this indices state
  = match checkExpansion (size this) indices with
    | Some expansion => setExternalBit (set fuel) this expansion indices state
    | None => setInternalBit this indices state
    end.
Proof. reflexivity. Qed.

Lemma set_inRange_Ret fuel h M d indices state :
  valid h M → h !! buffer M = Some d → inRange (size M) indices →
  set (S fuel) M indices state h
  = Ret (mkMatrix (size M) (length h),
         h ++ [<[Z.to_nat (indicesToOffset (size M) indices) := state]> d]).
Proof.
  intros Hv Hd Hin. cbn [set]. rewrite checkExpansion_inRange by done.
  now apply setInternalBit_Ret.
Qed.

Lemma valid_set_result h M d o state :
  valid h M → h !! buffer M = Some d →
  valid (h ++ [<[o := state]> d]) (mkMatrix (size M) (length h)).
Proof.
  intros Hv Hd. split; [apply Hv|]. cbn [size buffer].
  eexists. split; [apply lookup_fresh|]. rewrite length_insert.
  destruct Hv as [_ (b & Hb & Hl)]. rewrite Hd in Hb. now injection Hb as <-.
Qed.

Lemma get_Ret_inv (h : heap) M (d : Buffer) indices bit :
  h !! buffer M = Some d → get M indices h = Ret bit →
  d !! Z.to_nat (indicesToOffset (size M) indices) = Some bit.
Proof.
  intros Hd. unfold get, bitbybit.getBit. rewrite Hd.
  destruct (_ <? 0); [done|]. destruct (d !! _); [|done]. now intros [= ->].
Qed.

(** Reading the matrix an in-bounds [set] returns. *)
Lemma set_inRange_read (h : heap) M (d : Buffer) indices state other :
  valid h M → h !! buffer M = Some d →
  inRange (size M) indices → inRange (size M) other →
  ∃ bit, get M other h = Ret bit ∧
    get (mkMatrix (size M) (length h)) other
        (h ++ [<[Z.to_nat (indicesToOffset (size M) indices) := state]> d])
    = Ret (if bool_decide (other = indices) then state else bit).
Proof.
  intros Hv Hd Hin Hother.
  pose proof (inRange_offset _ _ Hin). pose proof (inRange_offset _ _ Hother).
  pose proof (valid_storage _ _ _ Hv Hd) as Hst.
  destruct (get_inRange h M d other (proj1 Hv) Hd Hst Hother) as (bit & Hbit & Hget).
  exists bit. split; [done|].
  unfold get. cbn [size buffer]. eapply getBit_Ret; [apply lookup_fresh|lia|].
  case_bool_decide as E.
  - subst other. apply list_lookup_insert_eq. unfold bitLength in *. lia.
  - rewrite list_lookup_insert_ne; [done|]. intros E'.
    apply Z2Nat.inj in E'; [|lia|lia]. apply E. symmetry.
    now apply (indicesToOffset_inj (size M)).
Qed.

(** C8: on indices in range, [set] returns a matrix of the same Size whose
    addressed cell reads [state] and whose other cells read as before;
    setting the same cell to the same value again yields an equal matrix. *)
Theorem set_get_coherence fuel h M indices state :
  valid h M → inRange (size M) indices →
  ∃ R h',
    set (S fuel) M indices state h = Ret (R, h') ∧
    size R = size M ∧ valid h' R ∧
    get R indices h' = Ret state ∧
    (∀ other, inRange (size M) other → other ≠ indices →
        ∃ bit, get M other h = Ret bit ∧ get R other h' = Ret bit) ∧
    preserved h h' ∧
    ∃ R2 h'',
      set (S fuel) R indices state h' = Ret (R2, h'') ∧
      isSameAs R2 R h'' = Ret true ∧ sameCells h'' R2 R.
Proof.
  intros Hv Hin. destruct (Hv) as [Hs (d & Hd & Hdl)].
  set (o := Z.to_nat (indicesToOffset (size M) indices)).
  set (R := mkMatrix (size M) (length h)). set (h' := h ++ [<[o := state]> d]).
  pose proof (inRange_offset _ _ Hin) as Ho.
  pose proof (valid_storage _ _ _ Hv Hd) as Hst.
  assert (HvR : valid h' R) by now apply valid_set_result.
  assert (HR : h' !! buffer R = Some (<[o := state]> d)) by apply lookup_fresh.
  assert (Hread : ∀ other, inRange (size M) other →
            get R other h' = Ret (default false (<[o := state]> d !! Z.to_nat (indicesToOffset (size M) other)))).
  { intros other Hother. pose proof (inRange_offset _ _ Hother).
    destruct (lookup_lt_is_Some_2 (<[o := state]> d) (Z.to_nat (indicesToOffset (size M) other)))
      as [x Hx]; [rewrite length_insert; unfold bitLength in *; lia|].
    rewrite Hx. unfold get. eapply getBit_Ret; [exact HR|cbn [size R]; lia|exact Hx]. }
  exists R, h'. split; [now apply set_inRange_Ret|]. split; [done|]. split; [done|].
  split; [|split; [|split]].
  - rewrite Hread by done. fold o. rewrite list_lookup_insert_eq; [done|].
    unfold o, bitLength in *. lia.
  - intros other Hother Hne.
    destruct (get_inRange h M d other Hs Hd Hst Hother) as (bit & Hbit & Hget).
    exists bit. split; [done|]. rewrite Hread by done.
    rewrite list_lookup_insert_ne; [now rewrite Hbit|].
    pose proof (inRange_offset _ _ Hother). unfold o. intros E.
    apply Z2Nat.inj in E; [|lia|lia]. apply Hne. symmetry.
    now apply (indicesToOffset_inj (size M)).
  - apply preserved_snoc.
  - set (R2 := mkMatrix (size M) (length h')).
    set (h'' := h' ++ [<[o := state]> (<[o := state]> d)]).
    assert (Eset : set (S fuel) R indices state h' = Ret (R2, h''))
      by now apply (set_inRange_Ret fuel h' R).
    assert (Hsame : sameCells h'' R2 R).
    { split; [done|]. intros other Hother. cbn [size R2] in Hother.
      pose proof (inRange_offset _ _ Hother).
      exists (default false (<[o := state]> d !! Z.to_nat (indicesToOffset (size M) other))).
      split.
      - destruct (lookup_lt_is_Some_2 (<[o := state]> d) (Z.to_nat (indicesToOffset (size M) other)))
          as [x Hx]; [rewrite length_insert; unfold bitLength in *; lia|].
        rewrite Hx. unfold get. eapply getBit_Ret; [apply lookup_fresh|cbn [size R2]; lia|].
        now rewrite list_insert_insert_eq.
      - eapply get_preserved; [apply preserved_snoc|]. now apply Hread. }
    exists R2, h''. split; [done|]. split; [|done].
    unfold isSameAs. now apply isSame_sameCells.
Qed.

End SetInternal.

(** ** set beyond the bounds *)

Section SetExternal.

Lemma grown_nonneg (size : Size) (indices : Indices) :
  Forall (λ s, 0 ≤ s) size →
  Forall (λ s, 0 ≤ s) (zip_with (λ s i, high s i - low i + 1) size indices).
Proof.
  intros Hs. revert indices.
  induction Hs as [|s size Hs _ IH]; intros [|i indices]; cbn; try constructor; [|apply IH].
  unfold high, low. lia.
Qed.

Lemma shifted_inRange (size : Size) (indices cell : Indices) :
  length indices = length size → inRange size cell →
  inRange (zip_with (λ s i, high s i - low i + 1) size indices)
          (zip_with Z.add cell (map (λ i, - low i) indices)).
Proof.
  intros Hl Hin. revert indices Hl.
  induction Hin as [|s c size cell Hc _ IH]; intros [|i indices] Hl; cbn in *; try done.
  - constructor.
  - constructor; [unfold high, low; lia|]. apply IH. lia.
Qed.

Lemma expansion_fits (M : BinaryMatrix) (indices : Indices) r :
  length indices = length (size M) →
  pasteFits (mkMatrix (zip_with (λ s i, high s i - low i + 1) (size M) indices) r) M
            (map (λ i, - low i) indices).
Proof.
  intros Hl cell Hin. exists (zip_with Z.add cell (map (λ i, - low i) indices)).
  split; [|now apply shifted_inRange].
  unfold translate. rewrite length_map, Hl, (inRange_length _ _ Hin).
  now rewrite Nat.leb_refl.
Qed.

(** One turn of the growth path: a zero-filled matrix of the new Size is
    allocated, the receiver is pasted into it at the origin shift, and [set]
    is called on the result with the indices it was given. *)
Lemma setExternalBit_step (set' : BinaryMatrix → Indices → bool → St BinaryMatrix)
  (h : heap) M (d : Buffer) indices state :
  valid h M → h !! buffer M = Some d → length indices = length (size M) →
  let size' := zip_with (λ s i, high s i - low i + 1) (size M) indices in
  let pos := map (λ i, - low i) indices in
  let zeros := replicate (bitbybit.storageBits (sizeToBitLength size')) false in
  let h2 := (h ++ [zeros])
              ++ [pasted size' (size M) pos d zeros (seq 0 (Z.to_nat (bitLength M)))] in
  let grown := mkMatrix size' (S (length h)) in
  setExternalBit set' M (Expansion.mk size' pos) indices state h = set' grown indices state h2
  ∧ valid h2 grown ∧ preserved h h2.
Proof.
  intros Hv Hd Hl size' pos zeros h2 grown.
  pose proof (grown_nonneg (size M) indices (proj1 Hv)) as Hs'. fold size' in Hs'.
  set (fresh := mkMatrix size' (length h)).
  assert (Hfresh : valid (h ++ [zeros]) fresh).
  { split; [done|]. exists zeros. split; [apply lookup_fresh|]. apply length_replicate. }
  assert (HM : valid (h ++ [zeros]) M) by (eapply valid_preserved; [apply preserved_snoc|done]).
  pose proof (paste_Ret (h ++ [zeros]) fresh M pos zeros d Hfresh HM
                (expansion_fits M indices (length h) Hl) (lookup_fresh h zeros)
                (lookup_app_l_Some _ _ _ _ Hd)) as Hpaste.
  split; [|split].
  - unfold setExternalBit. cbn [Expansion.size Expansion.pos].
    rewrite (bind_Ret _ _ _ _ _ (new_Ret size' h Hs')).
    fold zeros fresh. rewrite (bind_Ret _ _ _ _ _ Hpaste).
    cbn [size fresh]. rewrite length_app, Nat.add_1_r. reflexivity.
  - pose proof (valid_paste_result (h ++ [zeros]) fresh M pos zeros d Hfresh (lookup_fresh h zeros)) as Hres.
    cbn [size fresh] in Hres. rewrite length_app, Nat.add_1_r in Hres. exact Hres.
  - eapply preserved_trans; apply preserved_snoc.
Qed.

(** With a negative component the grown matrix still does not contain the
    indices, so every nested call of [set] takes the growth path again. *)
Lemma negative_outside (size : Size) (indices : Indices) :
  Exists (λ i, i < 0) indices → ¬ inRange size indices.
Proof.
  intros Hneg Hin. induction Hin as [|s i size indices Hi _ IH]; inversion Hneg; subst; [lia|auto].
Qed.

Lemma set_negative_OutOfFuel indices state fuel :
  Exists (λ i, i < 0) indices →
  ∀ h M, valid h M → length indices = length (size M) →
         set fuel M indices state h = OutOfFuel.
Proof.
  intros Hneg. induction fuel as [|fuel IH]; intros h M Hv Hl; [done|].
  cbn [set]. rewrite checkExpansion_Some; [|done|now apply negative_outside].
  destruct (Hv) as [_ (d & Hd & _)].
  destruct (setExternalBit_step (set fuel) h M d indices state Hv Hd Hl) as (-> & Hv' & _).
  apply IH; [done|]. cbn [size].
  rewrite length_zip_with_l_eq; lia.
Qed.

Lemma nonneg_no_shift (indices cell : Indices) :
  Forall (λ i, 0 ≤ i) indices → length cell = length indices →
  zip_with Z.add cell (map (λ i, - low i) indices) = cell.
Proof.
  intros Hi. revert cell. induction Hi as [|i indices Hi _ IH]; intros [|c cell]; cbn; try done.
  intros [= Hl]. rewrite IH by done. f_equal. unfold low. lia.
Qed.

Lemma nonneg_inRange_grown (size : Size) (indices : Indices) :
  Forall (λ i, 0 ≤ i) indices → length indices = length size →
  inRange (zip_with (λ s i, high s i - low i + 1) size indices) indices.
Proof.
  intros Hi. revert size. induction Hi as [|i indices Hi _ IH]; intros [|s size]; cbn; try done.
  - constructor.
  - intros [= Hl]. constructor; [unfold high, low; lia|now apply IH].
Qed.

(** Without a negative component the growth path works: the origin shift
    is zero, one nested call of [set] reaches the in-bounds write, the old
    content is kept at its place and the requested cell reads [state]. *)
Lemma set_expansion_nonnegative fuel h M indices state :
  valid h M → length indices = length (size M) →
  Forall (λ i, 0 ≤ i) indices → ¬ inRange (size M) indices →
  let originShift := map (λ i, - low i) indices in
  ∃ R h',
    set (S (S fuel)) M indices state h = Ret (R, h') ∧
    size R = zip_with (λ s i, high s i - low i + 1) (size M) indices ∧
    valid h' R ∧ preserved h h' ∧
    get R (zip_with Z.add indices originShift) h' = Ret state ∧
    (∀ cell, inRange (size M) cell →
       ∃ bit, get M cell h = Ret bit ∧
              get R (zip_with Z.add cell originShift) h' = Ret bit).
Proof.
  intros Hv Hl Hnn Hout originShift. destruct (Hv) as [Hs (d & Hd & _)].
  set (size' := zip_with (λ s i, high s i - low i + 1) (size M) indices).
  set (zeros := replicate (bitbybit.storageBits (sizeToBitLength size')) false).
  destruct (setExternalBit_step (set (S fuel)) h M d indices state Hv Hd Hl)
    as (Estep & Hgrown & Hpres).
  fold size' zeros originShift in Estep, Hgrown, Hpres.
  set (h2 := (h ++ [zeros]) ++ [pasted size' (size M) originShift d zeros
                                   (seq 0 (Z.to_nat (bitLength M)))]) in *.
  set (grown := mkMatrix size' (S (length h))) in *.
  assert (Hd2 : h2 !! buffer grown = Some (pasted size' (size M) originShift d zeros
                                   (seq 0 (Z.to_nat (bitLength M))))).
  { unfold h2, grown. cbn [buffer].
    replace (S (length h)) with (length (h ++ [zeros])) by (rewrite length_app; cbn; lia).
    apply lookup_fresh. }
  assert (Hin' : inRange (size grown) indices) by now apply nonneg_inRange_grown.
  eexists _, _. split.
  { rewrite set_S, checkExpansion_Some by done. fold size' originShift. rewrite Estep.
    exact (set_inRange_Ret fuel h2 grown _ indices state Hgrown Hd2 Hin'). }
  split; [done|]. split; [now apply valid_set_result|].
  split; [eapply preserved_trans; [exact Hpres|apply preserved_snoc]|].
  unfold originShift. split.
  - rewrite nonneg_no_shift by done.
    destruct (set_inRange_read h2 grown _ indices state indices Hgrown Hd2 Hin' Hin')
      as (bit & _ & Hread).
    rewrite bool_decide_eq_true_2 in Hread by done. exact Hread.
  - intros cell Hcell.
    assert (Hlc : length cell = length indices) by (rewrite Hl; now apply inRange_length).
    rewrite nonneg_no_shift by done.
    assert (Hfresh : valid (h ++ [zeros]) (mkMatrix size' (length h))).
    { split; [now apply grown_nonneg|]. exists zeros.
      split; [apply lookup_fresh|apply length_replicate]. }
    assert (HM : valid (h ++ [zeros]) M)
      by (eapply valid_preserved; [apply preserved_snoc|done]).
    destruct (paste_cells (h ++ [zeros]) (mkMatrix size' (length h)) M originShift zeros d
                Hfresh HM (expansion_fits M indices (length h) Hl) (lookup_fresh h zeros)
                (lookup_app_l_Some _ _ _ _ Hd)) as [Hcells _].
    destruct (Hcells cell (zip_with Z.add cell originShift) Hcell) as (bit & HgetM & Hget2).
    { unfold translate, originShift. rewrite length_map, Hl, (inRange_length _ _ Hcell).
      now rewrite Nat.leb_refl. }
    unfold originShift in Hget2.
    rewrite nonneg_no_shift in Hget2 by done.
    cbn [size] in Hget2. rewrite length_app, Nat.add_1_r in Hget2. fold grown h2 in Hget2.
    assert (Hcell' : inRange (size grown) cell).
    { pose proof (shifted_inRange (size M) indices cell Hl Hcell) as Hsh.
      rewrite nonneg_no_shift in Hsh by done. exact Hsh. }
    destruct (set_inRange_read h2 grown _ indices state cell Hgrown Hd2 Hin' Hcell')
      as (bit' & Hget2' & Hread).
    assert (E : Ret bit' = Ret bit) by (etransitivity; [symmetry; exact Hget2'|exact Hget2]).
    injection E as ->.
    exists bit. split.
    + unfold get, bitbybit.getBit in HgetM |- *.
      now rewrite (lookup_app_l_Some _ _ _ _ Hd) in HgetM; rewrite Hd.
    + rewrite bool_decide_eq_false_2 in Hread; [exact Hread|].
      intros ->. now apply Hout.
Qed.

End SetExternal.

(** ** Enumerating the cells *)

Section Listing.

Lemma filter_state_length {A} (f : A → bool) (l : list A) :
  (length (filter (λ o, f o = true) l) + length (filter (λ o, f o = false) l))%nat = length l.
Proof.
  induction l as [|a l IH]; [done|].
  rewrite !filter_cons. destruct (f a) eqn:E.
  - rewrite decide_True, decide_False by done. cbn. lia.
  - rewrite decide_False, decide_True by done. cbn. lia.
Qed.

Lemma list__Ret (h : heap) M (b : Buffer) state :
  valid h M → h !! buffer M = Some b →
  list_ M state h
  = Ret (map (offsetToIndices (size M))
           (filter (λ o, default false (b !! Z.to_nat o) = state)
              (map (λ k, 0 + Z.of_nat k) (seq 0 (Z.to_nat (bitLength M - 0)))))).
Proof.
  intros Hv Hb. unfold list_, bitbybit.listBitHasState. rewrite Hb.
  pose proof (valid_storage _ _ _ Hv Hb). pose proof (valid_bitLength _ _ Hv).
  destruct (Z.ltb_spec 0 0); [lia|].
  destruct (Z.ltb_spec (Z.of_nat (length b)) (bitLength M)); [lia|]. reflexivity.
Qed.

Lemma listBit_collect_spec (h : heap) M (b : Buffer) m :
  ∀ k fuel,
    h !! buffer M = Some b →
    (k + S m = Z.to_nat (bitLength M))%nat → (Z.to_nat (bitLength M) ≤ length b)%nat →
    (S m ≤ fuel)%nat →
    listBit_collect fuel M k h
    = map (λ j, (default false (b !! j), offsetToIndices (size M) (Z.of_nat j))) (seq k (S m)).
Proof.
  induction m as [|m IH]; intros k fuel Hb HN Hlen Hfuel; (destruct fuel as [|fuel]; [lia|]).
  all: assert (Hk : (k < length b)%nat) by lia.
  all: destruct (lookup_lt_is_Some_2 b k Hk) as [bit Hbit].
  all: cbn [listBit_collect]; unfold listBit_yield, bitbybit.listBit; rewrite Hb, Hbit.
  all: rewrite listBit_break_spec by lia.
  - rewrite bool_decide_eq_true_2 by lia. cbn. now rewrite Hbit.
  - rewrite bool_decide_eq_false_2 by lia. rewrite IH by (done || lia).
    cbn [seq map]. now rewrite Hbit.
Qed.

Lemma listBit_Ret (h : heap) M (b : Buffer) :
  valid h M → h !! buffer M = Some b →
  listBit M h
  = Ret (map (λ j, (default false (b !! j), offsetToIndices (size M) (Z.of_nat j)))
           (seq 0 (Z.to_nat (bitLength M)))).
Proof.
  intros Hv Hb. unfold listBit, storageOf. rewrite Hb. cbn [default]. f_equal.
  pose proof (valid_storage _ _ _ Hv Hb) as Hst.
  destruct (Z.to_nat (bitLength M)) as [|m] eqn:Hm.
  - assert (b = []) as ->.
    { destruct Hv as [Hs (b' & Hb' & Hl)]. rewrite Hb in Hb'. injection Hb' as <-.
      pose proof (sizeToBitLength_nonneg _ Hs). unfold bitLength in *.
      replace (sizeToBitLength (size M)) with 0 in Hl by lia. now apply nil_length_inv. }
    cbn. unfold listBit_yield, bitbybit.listBit. now rewrite Hb.
  - rewrite (listBit_collect_spec h M b m 0); [done|done|lia|lia|cbn; lia].
Qed.

(** C10: the two state listings together have [bitLength] entries, all of
    them cells of the matrix holding the state asked for; [listBit] yields
    exactly [bitLength] pairs, the k-th one being the cell of offset k with
    its bit, so the padding of the storage is never shown. *)
Theorem listing_coverage h M :
  valid h M →
  ∃ trues falses entries,
    list_ M true h = Ret trues ∧ list_ M false h = Ret falses ∧
    listBit M h = Ret entries ∧
    Z.of_nat (length trues) + Z.of_nat (length falses) = bitLength M ∧
    Z.of_nat (length entries) = bitLength M ∧
    map (λ entry, indicesToOffset (size M) entry.2) entries
      = map Z.of_nat (seq 0 (Z.to_nat (bitLength M))) ∧
    Forall (λ entry, inRange (size M) entry.2 ∧ get M entry.2 h = Ret entry.1) entries ∧
    Forall (λ indices, inRange (size M) indices ∧ get M indices h = Ret true) trues ∧
    Forall (λ indices, inRange (size M) indices ∧ get M indices h = Ret false) falses.
Proof.
  intros Hv. destruct (Hv) as [Hs (b & Hb & Hbl)].
  pose proof (valid_bitLength _ _ Hv) as HN. pose proof (valid_storage _ _ _ Hv Hb) as Hst.
  assert (Hcell : ∀ k, (k < Z.to_nat (bitLength M))%nat →
            inRange (size M) (offsetToIndices (size M) (Z.of_nat k)) ∧
            get M (offsetToIndices (size M) (Z.of_nat k)) h = Ret (default false (b !! k))).
  { intros k Hk.
    assert (Hin : inRange (size M) (offsetToIndices (size M) (Z.of_nat k)))
      by (apply offsetToIndices_inRange; [done|unfold bitLength in *; lia]).
    split; [done|].
    destruct (get_inRange h M b _ Hs Hb Hst Hin) as (bit & Hbit & Hget).
    rewrite indicesToOffset_offsetToIndices, Nat2Z.id in Hbit
      by (done || unfold bitLength in *; lia).
    now rewrite Hbit. }
  assert (Hstate : ∀ state,
            Forall (λ indices, inRange (size M) indices ∧ get M indices h = Ret state)
              (map (offsetToIndices (size M))
                 (filter (λ o, default false (b !! Z.to_nat o) = state)
                    (map (λ k, 0 + Z.of_nat k) (seq 0 (Z.to_nat (bitLength M - 0))))))).
  { intros state. apply Forall_forall. intros indices Hin. apply list_elem_of_In in Hin.
    apply list_elem_of_fmap in Hin as (o & -> & Ho).
    apply list_elem_of_filter in Ho as [Hbit Ho].
    apply list_elem_of_fmap in Ho as (k & -> & Hk). apply elem_of_seq in Hk.
    rewrite Z.add_0_l, Nat2Z.id in *. destruct (Hcell k) as [? Hget]; [lia|].
    now rewrite Hbit in Hget. }
  eexists _, _, _. split; [exact (list__Ret h M b true Hv Hb)|].
  split; [exact (list__Ret h M b false Hv Hb)|].
  split; [exact (listBit_Ret h M b Hv Hb)|].
  split; [|split; [|split; [|split; [|split]]]].
  - rewrite !length_map, <- Nat2Z.inj_add.
    rewrite (filter_state_length (λ o, default false (b !! Z.to_nat o))).
    rewrite length_map, length_seq. lia.
  - rewrite length_map, length_seq. lia.
  - rewrite map_map. apply map_ext_in. intros k Hk. apply in_seq in Hk. cbn [snd].
    apply indicesToOffset_offsetToIndices; [done|unfold bitLength in *; lia].
  - apply Forall_forall. intros entry Hin. apply list_elem_of_In in Hin.
    apply list_elem_of_fmap in Hin as (k & -> & Hk). apply elem_of_seq in Hk.
    cbn [fst snd]. apply Hcell. lia.
  - apply Hstate.
  - apply Hstate.
Qed.

End Listing.

(** ** Run lengths and the sequential writer *)

Section RunLengths.

Lemma runs_nonneg bits : ∀ state c, 0 ≤ c → Forall (λ n, 0 ≤ n) (bitbybit.runs state c bits).
Proof.
  induction bits as [|bit bits IH]; intros state c Hc; cbn.
  - now repeat constructor.
  - destruct (Bool.eqb bit state); [apply IH; lia|]. constructor; [done|]. apply IH. lia.
Qed.

Lemma sumZ_nonneg l : Forall (λ n, 0 ≤ n) l → 0 ≤ sumZ l.
Proof. induction 1; cbn; [done|]. unfold sumZ in *. lia. Qed.

Lemma sumZ_cons n l : sumZ (n :: l) = n + sumZ l.
Proof. reflexivity. Qed.

Lemma consumed_cons total off n rest :
  consumed total off (n :: rest)
  = if off <? total then n :: consumed total (off + n) rest else [].
Proof. reflexivity. Qed.

Lemma consumed_nil total off : consumed total off [] = [].
Proof. cbn. now destruct (off <? total). Qed.

Lemma consumed_nonneg total runLengths :
  Forall (λ n, 0 ≤ n) runLengths →
  ∀ off, Forall (λ n, 0 ≤ n) (consumed total off runLengths).
Proof.
  induction 1 as [|n rest Hn _ IH]; intros off; [now rewrite consumed_nil|].
  rewrite consumed_cons. destruct (off <? total); [|done]. now constructor.
Qed.

(** The loop reads a prefix of the stream. *)
Lemma expand_consumed_prefix total runLengths :
  ∀ state off, expand state (consumed total off runLengths) `prefix_of` expand state runLengths.
Proof.
  induction runLengths as [|n rest IH]; intros state off.
  - now rewrite consumed_nil.
  - rewrite consumed_cons. destruct (off <? total); [|apply prefix_nil].
    cbn [expand]. apply prefix_app, IH.
Qed.

Lemma expand_length runLengths :
  Forall (λ n, 0 ≤ n) runLengths →
  ∀ state, Z.of_nat (length (expand state runLengths)) = sumZ runLengths.
Proof.
  induction 1 as [|n rest Hn _ IH]; intros state; [done|].
  cbn [expand]. rewrite length_app, length_replicate, Nat2Z.inj_add, IH, sumZ_cons. lia.
Qed.

(** On the stream [runLength] extracts, the loop reads runs that add up to
    the number of bits and expand to exactly these bits. *)
Lemma consumed_runs total bits :
  ∀ state c off,
    0 ≤ c → off + c + Z.of_nat (length bits) = total →
    expand state (consumed total off (bitbybit.runs state c bits))
      = replicate (Z.to_nat c) state ++ bits ∧
    sumZ (consumed total off (bitbybit.runs state c bits)) = c + Z.of_nat (length bits).
Proof.
  induction bits as [|bit bits IH]; intros state c off Hc Htotal.
  - cbn [bitbybit.runs length] in *. rewrite consumed_cons, consumed_nil.
    destruct (Z.ltb_spec off total); cbn [expand sumZ foldr].
    + rewrite app_nil_r. split; [done|]. lia.
    + replace c with 0 by lia. done.
  - cbn [bitbybit.runs]. cbn [length] in Htotal. destruct (Bool.eqb bit state) eqn:E.
    + apply Bool.eqb_prop in E. subst bit.
      destruct (IH state (c + 1) off) as [-> ->]; [lia|lia|].
      split; [|cbn [length]; lia]. rewrite Z2Nat.inj_add by lia. change (Z.to_nat 1) with 1%nat.
      rewrite replicate_add. cbn [replicate]. now rewrite <- app_assoc.
    + rewrite consumed_cons. destruct (Z.ltb_spec off total); [|lia].
      destruct (IH bit 1 (off + c)) as [E1 E2]; [lia|lia|].
      cbn [expand]. rewrite sumZ_cons, E2.
      assert (negb state = bit) as -> by (destruct state, bit; done).
      rewrite E1. split; [done|]. cbn [length]. lia.
Qed.

Lemma setRuns_cons state n rest :
  setRuns state (n :: rest) = (if state then [n] else []) ++ setRuns (negb state) rest.
Proof. reflexivity. Qed.

(** The runs the loop reads are among the runs of the stream. *)
Lemma setRuns_consumed total runLengths :
  ∀ state off,
    Forall exactRun (setRuns state runLengths) →
    Forall exactRun (setRuns state (consumed total off runLengths)).
Proof.
  induction runLengths as [|n rest IH]; intros state off Hshort.
  - now rewrite consumed_nil.
  - rewrite consumed_cons. destruct (off <? total); [|constructor].
    rewrite setRuns_cons in *. apply Forall_app in Hshort as [Hn Hrest].
    apply Forall_app. split; [done|]. now apply IH.
Qed.

(** The value handed to the writer for a run: within 53 bits the double
    [2 ** bitLength - 1] is the exact integer. *)
Lemma allOnes_exact n : 0 ≤ n → exactRun n → allOnes n = Some (2 ^ n - 1).
Proof.
  unfold exactRun, allOnes. intros H0 H53.
  destruct (Z.ltb_spec n 0); [lia|]. destruct (Z.ltb_spec 1023 n); [lia|].
  destruct (Z.leb_spec n 53); [done|lia].
Qed.

(** Beyond 53 bits it is the power itself, whose low bits are all 0. *)
Lemma allOnes_rounded n : 53 < n ≤ 1023 → allOnes n = Some (2 ^ n).
Proof.
  unfold allOnes. intros Hn.
  destruct (Z.ltb_spec n 0); [lia|]. destruct (Z.ltb_spec 1023 n); [lia|].
  destruct (Z.leb_spec n 53); [lia|done].
Qed.

Lemma fill_bits (state : bool) (n : Z) :
  0 ≤ n →
  map (λ j, Z.testbit (if state then 2 ^ n - 1 else 0) (n - 1 - Z.of_nat j))
      (seq 0 (Z.to_nat n))
  = replicate (Z.to_nat n) state.
Proof.
  intros Hn. apply list_eq. intros k.
  destruct (decide (k < Z.to_nat n)%nat) as [Hk|Hk].
  - rewrite lookup_replicate_2 by done.
    rewrite list_lookup_fmap, lookup_seq_lt by done. cbn. f_equal.
    destruct state.
    + replace (2 ^ n - 1) with (Z.ones n) by (rewrite Z.ones_equiv; lia).
      apply Z.ones_spec_low. lia.
    + apply Z.bits_0.
  - rewrite (proj1 (lookup_replicate_None _ _ _)) by lia.
    apply lookup_ge_None_2. rewrite length_map, length_seq. lia.
Qed.

End RunLengths.

(** ** Decoding *)

Section Decoding.

Lemma forEach_setBit t c (f : nat → bool) m :
  ∀ a (h : heap) (d : Buffer),
    h !! t = Some d → (c + a + m ≤ length d)%nat →
    forEach (seq a m) (λ j, bitbybit.setBit t (Z.of_nat c + Z.of_nat j) (f j)) h
    = Ret (tt, <[t := list_inserts (c + a) (map f (seq a m)) d]> h).
Proof.
  induction m as [|m IH]; intros a h d Hd Hlen.
  - cbn. unfold ret. now rewrite (list_insert_id h _ _ Hd).
  - cbn [seq forEach map].
    erewrite bind_Ret by (eapply setBit_Ret; [exact Hd|lia]).
    assert (Ht : (t < length h)%nat) by (eapply lookup_lt_Some; eauto).
    rewrite (IH (S a) _ (<[Z.to_nat (Z.of_nat c + Z.of_nat a) := f a]> d));
      [|now apply list_lookup_insert_eq|rewrite length_insert; lia].
    rewrite list_insert_insert_eq. do 3 f_equal.
    cbn [list_inserts].
    replace (Z.to_nat (Z.of_nat c + Z.of_nat a)) with (c + a)%nat by lia.
    replace (c + S a)%nat with (S (c + a)) by lia.
    now rewrite list_insert_inserts_lt by lia.
Qed.

(** Writing a run: [bitLength] bits of [state] at the cursor. *)
Lemma write_fill t cursor (state : bool) n (h : heap) (d : Buffer) :
  h !! t = Some d → 0 ≤ n → 0 ≤ cursor → cursor + n ≤ Z.of_nat (length d) →
  bitbybit.write (bitbybit.mkWriter t cursor) (if state then 2 ^ n - 1 else 0) n h
  = Ret (bitbybit.mkWriter t (cursor + n),
         <[t := list_inserts (Z.to_nat cursor) (replicate (Z.to_nat n) state) d]> h).
Proof.
  intros Hd Hn Hc Hlen. unfold bitbybit.write.
  destruct (Z.ltb_spec n 0); [lia|]. cbn [bitbybit.target bitbybit.cursor].
  assert (cursor = Z.of_nat (Z.to_nat cursor)) as Ec by lia.
  revert Ec Hlen. generalize (Z.to_nat cursor). intros c -> Hlen.
  erewrite bind_Ret by (apply (forEach_setBit t c _ _ 0 h d); [done|lia]).
  unfold ret. now rewrite fill_bits, Nat.add_0_r by done.
Qed.

(** Writing a run of 54 to 1023 set bits: the value handed over is
    [2 ** bitLength], and the bits written are its low ones, all 0. *)
Lemma write_rounded t cursor n (h : heap) (d : Buffer) :
  h !! t = Some d → 53 < n ≤ 1023 → 0 ≤ cursor → cursor + n ≤ Z.of_nat (length d) →
  ∃ value,
    allOnes n = Some value ∧
    bitbybit.write (bitbybit.mkWriter t cursor) value n h
    = Ret (bitbybit.mkWriter t (cursor + n),
           <[t := list_inserts (Z.to_nat cursor) (replicate (Z.to_nat n) false) d]> h).
Proof.
  intros Hd Hn Hc Hlen. exists (2 ^ n). split; [now apply allOnes_rounded|].
  unfold bitbybit.write.
  destruct (Z.ltb_spec n 0); [lia|]. cbn [bitbybit.target bitbybit.cursor].
  assert (cursor = Z.of_nat (Z.to_nat cursor)) as Ec by lia.
  revert Ec Hlen. generalize (Z.to_nat cursor). intros c -> Hlen.
  erewrite bind_Ret by (apply (forEach_setBit t c _ _ 0 h d); [done|lia]).
  unfold ret. rewrite Nat.add_0_r. do 4 f_equal.
  apply list_eq. intros k.
  destruct (decide (k < Z.to_nat n)%nat) as [Hk|Hk].
  - rewrite lookup_replicate_2 by done.
    rewrite list_lookup_fmap, lookup_seq_lt by done. cbn. f_equal.
    apply Z.pow2_bits_false. lia.
  - rewrite (proj1 (lookup_replicate_None _ _ _)) by lia.
    apply lookup_ge_None_2. rewrite length_map, length_seq. lia.
Qed.

Lemma decodeRuns_Ret total t runLengths :
  Forall (λ n, 0 ≤ n) runLengths →
  ∀ state off (h : heap) (d : Buffer),
    Forall exactRun (setRuns state (consumed total off runLengths)) →
    0 ≤ off → h !! t = Some d →
    total ≤ off + sumZ (consumed total off runLengths) ≤ Z.of_nat (length d) →
    decodeRuns total (bitbybit.mkWriter t off) state off runLengths h
    = Ret (bitbybit.mkWriter t (off + sumZ (consumed total off runLengths)),
           <[t := list_inserts (Z.to_nat off)
                    (expand state (consumed total off runLengths)) d]> h).
Proof.
  induction 1 as [|n rest Hn Hrest IH]; intros state off h d Hshort Hoff Hd Hsum.
  - rewrite consumed_nil in *. cbn [sumZ foldr expand list_inserts] in *. cbn [decodeRuns].
    destruct (Z.ltb_spec off total); [lia|].
    unfold ret. now rewrite Z.add_0_r, (list_insert_id h _ _ Hd).
  - rewrite consumed_cons in *. cbn [decodeRuns].
    destruct (Z.ltb_spec off total).
    + rewrite sumZ_cons in *. rewrite setRuns_cons in Hshort.
      apply Forall_app in Hshort as [Hrun Hshort].
      pose proof (sumZ_nonneg _ (consumed_nonneg total rest Hrest (off + n))).
      assert (Ev : (if state then allOnes n else Some 0)
                   = Some (if state then 2 ^ n - 1 else 0)).
      { destruct state; [|done]. apply allOnes_exact; [done|]. now inversion Hrun. }
      rewrite Ev.
      erewrite bind_Ret by (apply write_fill; [exact Hd|lia..]).
      assert (Ht : (t < length h)%nat) by (eapply lookup_lt_Some; eauto).
      rewrite (IH _ _ _ (list_inserts (Z.to_nat off) (replicate (Z.to_nat n) state) d));
        [|done|lia|now apply list_lookup_insert_eq|rewrite length_inserts; lia].
      rewrite list_insert_insert_eq, Z.add_assoc. do 3 f_equal.
      cbn [expand]. rewrite list_inserts_app_l, length_replicate. f_equal. lia.
    + cbn [sumZ foldr expand list_inserts].
      unfold ret. now rewrite Z.add_0_r, (list_insert_id h _ _ Hd).
Qed.

Lemma readSize_app (size : Size) (rest : list Z) :
  readSize (length size) (size ++ rest) = Some (size, rest).
Proof. induction size as [|s size IH]; cbn; [done|]. now rewrite IH. Qed.

(** [decode] on a stream that declares [size] and whose runs reach the
    declared bit count without leaving the allocated storage. *)
Lemma decode_Ret {codec : VlqCodec} encoded (size : Size) (runLengths : list Z) (h : heap) :
  vlq_decode encoded = Z.of_nat (length size) :: size ++ runLengths →
  Forall (λ s, 0 ≤ s) size → Forall (λ n, 0 ≤ n) runLengths →
  Forall exactRun (setRuns false (consumed (sizeToBitLength size) 0 runLengths)) →
  sizeToBitLength size ≤ sumZ (consumed (sizeToBitLength size) 0 runLengths)
    ≤ Z.of_nat (bitbybit.storageBits (sizeToBitLength size)) →
  decode encoded h
  = Ret (mkMatrix size (length h),
         h ++ [list_inserts 0 (expand false (consumed (sizeToBitLength size) 0 runLengths))
                 (replicate (bitbybit.storageBits (sizeToBitLength size)) false)]).
Proof.
  intros Hdec Hs Hr Hshort Hsum. unfold decode. rewrite Hdec, Nat2Z.id, readSize_app.
  rewrite (bind_Ret _ _ _ _ _ (createBuffer_Ret _ h (sizeToBitLength_nonneg _ Hs))).
  unfold bitbybit.newBitWriter.
  erewrite bind_Ret.
  2:{ apply decodeRuns_Ret; [done|done|lia|apply lookup_fresh|].
      rewrite length_replicate. lia. }
  unfold ret. cbn [bitbybit.end_ bitbybit.target]. now rewrite insert_fresh.
Qed.

End Decoding.

(** ** The varint codec meets the interface *)

Section Varint.

Lemma zOfByte_byteOfZ v : 0 ≤ v < 256 → zOfByte (byteOfZ v) = v.
Proof.
  intros Hv. unfold zOfByte, byteOfZ.
  destruct (Stdlib.Strings.Byte.of_N (Z.to_N v)) as [b|] eqn:E.
  - apply Stdlib.Strings.Byte.to_of_N in E. change (default Byte.x00 (Some b)) with b.
    rewrite E. lia.
  - apply Stdlib.Strings.Byte.of_N_None_iff in E. lia.
Qed.

Lemma varint_decode_group fuel :
  ∀ n acc weight rest,
    0 ≤ n ≤ Z.of_nat fuel →
    varint_decode_from acc weight (varintOf fuel n ++ rest)
    = (acc + n * weight) :: varint_decode_from 0 1 rest.
Proof.
  induction fuel as [|fuel IH]; intros n acc weight rest Hn.
  - cbn. rewrite zOfByte_byteOfZ by lia. destruct (Z.ltb_spec n 128); [done|lia].
  - cbn [varintOf]. destruct (Z.ltb_spec n 128) as [Hsmall|Hbig].
    + cbn. rewrite zOfByte_byteOfZ by lia. destruct (Z.ltb_spec n 128); [done|lia].
    + pose proof (Z.mod_pos_bound n 128 ltac:(lia)).
      pose proof (Z.div_mod n 128 ltac:(lia)).
      cbn [app varint_decode_from]. rewrite zOfByte_byteOfZ by lia.
      destruct (Z.ltb_spec (128 + n `mod` 128) 128); [lia|].
      rewrite IH by lia. f_equal. lia.
Qed.

Lemma varint_decode_encode data :
  Forall (λ n, 0 ≤ n) data → varint_decode (varint_encode data) = data.
Proof.
  unfold varint_decode, varint_encode.
  induction 1 as [|n data Hn _ IH]; [done|].
  cbn [flat_map]. rewrite varint_decode_group by lia. rewrite IH. f_equal. lia.
Qed.

End Varint.

#[export] Instance varint : VlqCodec := {
  vlq_encode := varint_encode;
  vlq_decode := varint_decode;
  vlq_decode_encode := varint_decode_encode
}.

(** ** The round trip *)

Section RoundTrip.
Context {codec : VlqCodec}.

Lemma expand_runs bits :
  ∀ state c, 0 ≤ c →
    expand state (bitbybit.runs state c bits) = replicate (Z.to_nat c) state ++ bits.
Proof.
  induction bits as [|bit bits IH]; intros state c Hc; cbn [bitbybit.runs].
  - cbn. now rewrite !app_nil_r.
  - destruct (Bool.eqb bit state) eqn:E.
    + apply Bool.eqb_prop in E. subst bit. rewrite IH by lia.
      rewrite Z2Nat.inj_add by lia. change (Z.to_nat 1) with 1%nat.
      rewrite replicate_add. cbn [replicate]. now rewrite <- app_assoc.
    + cbn [expand].
      assert (negb state = bit) as -> by (destruct state, bit; done).
      now rewrite IH by lia.
Qed.

Lemma encode_Ret (h : heap) M (b : Buffer) :
  valid h M → h !! buffer M = Some b →
  encode M h
  = Ret (vlq_encode (Z.of_nat (length (size M)) :: size M
                       ++ bitbybit.runs false 0 (take (Z.to_nat (bitLength M)) b))).
Proof.
  intros Hv Hb. unfold encode, bitbybit.runLength. rewrite Hb.
  pose proof (valid_storage _ _ _ Hv Hb). pose proof (valid_bitLength _ _ Hv).
  destruct (Z.ltb_spec 0 0); [lia|].
  destruct (Z.ltb_spec (Z.of_nat (length b)) (bitLength M)); [lia|].
  cbn [orb]. now rewrite Z.sub_0_r.
Qed.

(** The bits of a valid matrix in offset order are its cells. *)
Lemma cell_of_offset (h : heap) M (b : Buffer) k :
  valid h M → h !! buffer M = Some b → (k < Z.to_nat (bitLength M))%nat →
  inRange (size M) (offsetToIndices (size M) (Z.of_nat k)) ∧
  ∃ bit, b !! k = Some bit ∧ get M (offsetToIndices (size M) (Z.of_nat k)) h = Ret bit.
Proof.
  intros Hv Hb Hk. destruct (Hv) as [Hs _].
  assert (Hin : inRange (size M) (offsetToIndices (size M) (Z.of_nat k)))
    by (apply offsetToIndices_inRange; [done|unfold bitLength in *; lia]).
  split; [done|].
  destruct (get_inRange h M b _ Hs Hb (valid_storage _ _ _ Hv Hb) Hin) as (bit & Hbit & Hget).
  rewrite indicesToOffset_offsetToIndices, Nat2Z.id in Hbit
    by (done || unfold bitLength in *; lia).
  eauto.
Qed.

Lemma sameCells_bits (h : heap) M M2 (b b2 : Buffer) :
  valid h M → valid h M2 → sameCells h M M2 →
  h !! buffer M = Some b → h !! buffer M2 = Some b2 →
  take (Z.to_nat (bitLength M)) b = take (Z.to_nat (bitLength M2)) b2.
Proof.
  intros Hv Hv2 [Esize Hcells] Hb Hb2. unfold bitLength. rewrite <- Esize.
  fold (bitLength M). apply list_eq. intros k.
  destruct (decide (k < Z.to_nat (bitLength M))%nat) as [Hk|Hk].
  - rewrite !lookup_take_lt by done.
    destruct (cell_of_offset h M b k Hv Hb Hk) as (Hin & bit & Hbit & Hget).
    destruct (Hcells _ Hin) as (bit' & Hget' & Hget2).
    rewrite Hget in Hget'. injection Hget' as <-.
    apply (get_Ret_inv _ _ _ _ _ Hb2) in Hget2.
    rewrite <- Esize, indicesToOffset_offsetToIndices, Nat2Z.id in Hget2;
      [congruence|apply Hv|unfold bitLength in *; lia].
  - rewrite !lookup_take_ge by lia. done.
Qed.

Lemma setRunsOf_consumed (h : heap) M (b : Buffer) :
  h !! buffer M = Some b → Forall exactRun (setRunsOf h M) →
  Forall exactRun
    (setRuns false (consumed (bitLength M) 0
                      (bitbybit.runs false 0 (take (Z.to_nat (bitLength M)) b)))).
Proof.
  intros Hb Hshort. unfold setRunsOf in Hshort. rewrite Hb in Hshort.
  now apply setRuns_consumed.
Qed.

(** X13: [encode] is a function of the Size and the cells (equal matrices
    have the same encoding); the run lengths it emits, read as alternating
    runs that begin with a run of 0-bits, are exactly the cells in offset
    order; and for a matrix without a run of more than 53 set bits,
    [decode] of the encoding returns a matrix equal to the one encoded. *)
Theorem roundtrip_exact_runs h M :
  valid h M →
  ∃ encoded runLengths,
    encode M h = Ret encoded ∧
    encoded = vlq_encode (Z.of_nat (length (size M)) :: size M ++ runLengths) ∧
    Forall (λ n, 0 ≤ n) runLengths ∧
    Z.of_nat (length (expand false runLengths)) = bitLength M ∧
    (∀ indices, inRange (size M) indices →
       ∃ bit, expand false runLengths !! Z.to_nat (indicesToOffset (size M) indices) = Some bit
              ∧ get M indices h = Ret bit) ∧
    (∀ M2, valid h M2 → sameCells h M M2 → encode M2 h = Ret encoded) ∧
    (Forall exactRun (setRunsOf h M) →
     ∃ M' h',
       decode encoded h = Ret (M', h') ∧
       size M' = size M ∧ valid h' M' ∧ preserved h h' ∧
       isSameAs M' M h' = Ret true ∧ sameCells h' M' M).
Proof.
  intros Hv. destruct (Hv) as [Hs (b & Hb & Hbl)].
  pose proof (valid_bitLength _ _ Hv) as HN. pose proof (valid_storage _ _ _ Hv Hb) as Hst.
  pose proof (setRunsOf_consumed h M b Hb) as Hexact.
  set (N := Z.to_nat (bitLength M)) in *. set (bits := take N b) in *.
  assert (Hbits : length bits = N) by (unfold bits; rewrite length_take; lia).
  set (runLengths := bitbybit.runs false 0 bits) in *.
  assert (Hrl : Forall (λ n, 0 ≤ n) runLengths) by (apply runs_nonneg; lia).
  assert (Hexp : expand false runLengths = bits)
    by (unfold runLengths; now rewrite expand_runs by lia).
  destruct (consumed_runs (bitLength M) bits false 0 0) as [Hcexp Hcsum]; [lia|lia|].
  fold runLengths in Hcexp, Hcsum.
  set (zeros := replicate (bitbybit.storageBits (sizeToBitLength (size M))) false).
  set (d' := list_inserts 0 bits zeros).
  set (M' := mkMatrix (size M) (length h)). set (h' := h ++ [d']).
  assert (Hd' : h' !! buffer M' = Some d') by apply lookup_fresh.
  assert (Hd'len : length d' = bitbybit.storageBits (bitLength M))
    by (unfold d'; rewrite length_inserts; apply length_replicate).
  assert (HvM' : valid h' M') by (split; [done|]; exists d'; done).
  assert (Hsame : sameCells h' M' M).
  { split; [done|]. intros indices Hin. cbn [size M'] in Hin.
    destruct (get_inRange h M b indices Hs Hb Hst Hin) as (bit & Hbit & Hget).
    pose proof (inRange_offset _ _ Hin) as Ho.
    exists bit. split; [|eapply get_preserved; [apply preserved_snoc|done]].
    unfold get. eapply getBit_Ret; [exact Hd'|cbn [size M']; lia|].
    cbn [size M']. unfold d'. rewrite list_lookup_inserts.
    - unfold bits. rewrite Nat.sub_0_r, lookup_take_lt; [done|].
      unfold N, bitLength. lia.
    - unfold N, bitLength in *. lia.
    - unfold zeros. rewrite length_replicate. fold (bitLength M). rewrite <- Hbl.
      unfold N, bitLength in *. lia. }
  exists (vlq_encode (Z.of_nat (length (size M)) :: size M ++ runLengths)), runLengths.
  split; [exact (encode_Ret h M b Hv Hb)|]. split; [done|]. split; [done|].
  split; [rewrite Hexp, Hbits; unfold N; lia|].
  split; [|split].
  - intros indices Hin.
    destruct (get_inRange h M b indices Hs Hb Hst Hin) as (bit & Hbit & Hget).
    pose proof (inRange_offset _ _ Hin) as Ho.
    exists bit. split; [|done]. rewrite Hexp. unfold bits.
    rewrite lookup_take_lt; [done|]. unfold N, bitLength. lia.
  - intros M2 Hv2 Hsame2. destruct (Hv2) as [_ (b2 & Hb2 & _)].
    rewrite (encode_Ret h M2 b2 Hv2 Hb2). destruct (Hsame2) as [<- _].
    now rewrite <- (sameCells_bits h M M2 b b2 Hv Hv2 Hsame2 Hb Hb2).
  - intros Hshort. exists M', h'.
    split; [|split; [done|split; [done|split; [apply preserved_snoc|split; [|done]]]]].
    + unfold h', d', M'. change (replicate (Z.to_nat 0) false ++ bits) with bits in Hcexp.
      rewrite <- Hcexp. apply decode_Ret; [|done|done|now apply Hexact|].
      * apply vlq_decode_encode. constructor; [lia|]. now apply Forall_app.
      * fold (bitLength M). rewrite Hcsum, Hbits. pose proof (storageBits_ge _ HN).
        unfold N in *. lia.
    + unfold isSameAs. now apply isSame_sameCells.
Qed.

(** C1 (what the code does): the round trip is lost on a run of 54 set
    bits.  The matrix of [fromString(["1".repeat(54)])] is encoded as the
    runs 0 and 54; for the second run [decode] hands the writer
    [2 ** 54 - 1], which as a double is [2 ** 54], whose 54 low bits are
    0: the matrix decoded has the same Size and no set cell. *)
Theorem roundtrip_breaks_on_long_run :
  fromString [onesRow 54] [] = Ret (longRun, longRunStore) ∧
  valid longRunStore longRun ∧
  encode longRun longRunStore = Ret (vlq_encode [2; 54; 1; 0; 54]) ∧
  allOnes 54 = Some (2 ^ 54) ∧
  ∃ M' h',
    decode (vlq_encode [2; 54; 1; 0; 54]) longRunStore = Ret (M', h') ∧
    size M' = size longRun ∧ valid h' M' ∧
    get longRun [0; 0] longRunStore = Ret true ∧ get M' [0; 0] h' = Ret false ∧
    list_ M' true h' = Ret [] ∧
    isSameAs M' longRun h' = Ret false.
Proof.
  split; [vm_compute; reflexivity|].
  split; [split; [repeat constructor; lia | eexists; split; reflexivity]|].
  split; [reflexivity|]. split; [reflexivity|].
  eexists _, _. split.
  { unfold decode. rewrite vlq_decode_encode by (repeat constructor; lia).
    vm_compute. reflexivity. }
  split; [reflexivity|].
  split; [split; [repeat constructor; lia | eexists; split; reflexivity]|].
  repeat split; vm_compute; reflexivity.
Qed.

End RoundTrip.

(** ** Inputs the specification rules out *)

Section Unchecked.

(** C7 (as the code has it): [decode] does not compare the run lengths
    with the declared bit count.  When the runs it reads pass that count
    and still fit the byte-padded buffer, and none of the runs of set bits
    among them is longer than the 53 bits for which the writer gets an
    exact value, it returns a matrix of the declared Size that holds the
    leading bits of the expanded runs; the excess bits and the integers
    that follow are dropped without notice. *)
Theorem decode_unchecked {codec : VlqCodec} encoded (extents : Size) (runLengths : list Z) h :
  vlq_decode encoded = Z.of_nat (length extents) :: extents ++ runLengths →
  Forall (λ s, 0 ≤ s) extents → Forall (λ n, 0 ≤ n) runLengths →
  Forall exactRun (setRuns false (consumed (sizeToBitLength extents) 0 runLengths)) →
  sizeToBitLength extents ≤ sumZ (consumed (sizeToBitLength extents) 0 runLengths)
    ≤ Z.of_nat (bitbybit.storageBits (sizeToBitLength extents)) →
  ∃ M h',
    decode encoded h = Ret (M, h') ∧ size M = extents ∧ valid h' M ∧ preserved h h' ∧
    ∀ indices, inRange extents indices →
      ∃ bit, expand false runLengths !! Z.to_nat (indicesToOffset extents indices) = Some bit
             ∧ get M indices h' = Ret bit.
Proof.
  intros Hdec Hs Hr Hexact Hsum.
  set (total := sizeToBitLength extents) in *.
  set (E := expand false (consumed total 0 runLengths)).
  set (zeros := replicate (bitbybit.storageBits total) false).
  assert (HE : Z.of_nat (length E) = sumZ (consumed total 0 runLengths))
    by (apply expand_length, consumed_nonneg, Hr).
  exists (mkMatrix extents (length h)), (h ++ [list_inserts 0 E zeros]).
  split; [now apply decode_Ret|]. split; [done|].
  split; [|split; [apply preserved_snoc|]].
  - split; [done|]. eexists. split; [apply lookup_fresh|].
    rewrite length_inserts. apply length_replicate.
  - intros indices Hin. pose proof (inRange_offset _ _ Hin) as Ho. fold total in Ho.
    set (k := Z.to_nat (indicesToOffset extents indices)) in *.
    destruct (lookup_lt_is_Some_2 E k) as [bit Hbit]; [lia|].
    exists bit. split.
    + eapply prefix_lookup_Some; [exact Hbit|apply expand_consumed_prefix].
    + unfold get. cbn [size buffer]. eapply getBit_Ret; [apply lookup_fresh|lia|].
      fold k. rewrite list_lookup_inserts, Nat.sub_0_r; [done|lia|].
      unfold zeros. rewrite length_replicate. lia.
Qed.

(** C4 (as the code has it): [get] checks nothing.  For indices of the
    matrix's dimension whose linear offset falls inside the bits of the
    matrix, in range or not, it returns the bit stored at that offset,
    which is the bit of the one in-range cell that has this offset. *)
Theorem get_unchecked h M (b : Buffer) indices :
  valid h M → h !! buffer M = Some b →
  length indices = length (size M) →
  0 ≤ indicesToOffset (size M) indices < bitLength M →
  let offset := indicesToOffset (size M) indices in
  let cell := offsetToIndices (size M) offset in
  inRange (size M) cell ∧ indicesToOffset (size M) cell = offset ∧
  ∃ bit, b !! Z.to_nat offset = Some bit ∧
         get M indices h = Ret bit ∧ get M cell h = Ret bit.
Proof.
  intros Hv Hb _ Ho offset cell. destruct (Hv) as [Hs _].
  assert (Hcell : inRange (size M) cell) by now apply offsetToIndices_inRange.
  assert (Eo : indicesToOffset (size M) cell = offset)
    by now apply indicesToOffset_offsetToIndices.
  split; [done|]. split; [done|].
  destruct (get_inRange h M b cell Hs Hb (valid_storage _ _ _ Hv Hb) Hcell) as (bit & Hbit & Hget).
  rewrite Eo in Hbit.
  exists bit. split; [done|]. split; [|done].
  unfold get. eapply getBit_Ret; [exact Hb|fold offset; lia|done].
Qed.

Lemma sizeToBitLength_zeros n : (0 < n)%nat → sizeToBitLength (replicate n 0) = 0.
Proof. destruct n; [lia|]. intros _. cbn. reflexivity. Qed.

(** C5 (as the code has it): for a positive dimension count,
    [fromDimension] builds an empty matrix: a Size of that length with
    extent 0 on every axis, no bits, and an empty buffer. *)
Theorem fromDimension_empty (dimension : Z) h :
  0 < dimension < 2 ^ 32 →
  ∃ M,
    fromDimension dimension h = Ret (M, h ++ [[]]) ∧
    Z.of_nat (length (size M)) = dimension ∧
    Forall (λ s, s = 0) (size M) ∧
    bitLength M = 0 ∧ valid (h ++ [[]]) M.
Proof.
  intros Hd. unfold fromDimension.
  destruct (Z.ltb_spec dimension 0); [lia|].
  destruct (Z.leb_spec (2 ^ 32) dimension); [lia|]. cbn [orb].
  assert (Hz : Forall (λ s, 0 ≤ s) (replicate (Z.to_nat dimension) 0))
    by (apply Forall_replicate; lia).
  assert (Hbits : sizeToBitLength (replicate (Z.to_nat dimension) 0) = 0)
    by (apply sizeToBitLength_zeros; lia).
  rewrite (new_Ret _ h Hz), Hbits.
  eexists. split; [reflexivity|]. cbn [size buffer].
  split; [rewrite length_replicate; lia|].
  split; [now apply Forall_replicate|]. split; [done|].
  split; [done|]. exists []. split; [apply lookup_fresh|].
  unfold bitLength. cbn [size]. now rewrite Hbits.
Qed.

End Unchecked.

(** ** fromString *)

Section FromString.

(** A loop whose body rewrites one buffer by a pure function. *)
Lemma forEach_pure {A} t L (F : A → Buffer → Buffer) (body : A → St unit) (l : list A) :
  (∀ a (h : heap) (d : Buffer),
      a ∈ l → h !! t = Some d → length d = L →
      body a h = Ret (tt, <[t := F a d]> h) ∧ length (F a d) = L) →
  ∀ (h : heap) (d : Buffer),
    h !! t = Some d → length d = L →
    forEach l body h = Ret (tt, <[t := foldl (λ acc a, F a acc) d l]> h)
    ∧ length (foldl (λ acc a, F a acc) d l) = L.
Proof.
  induction l as [|a l IH]; intros Hbody h d Hd HL.
  - cbn. unfold ret. now rewrite (list_insert_id h _ _ Hd).
  - destruct (Hbody a h d) as [Ea HLa]; [left|done|done|].
    cbn [forEach foldl]. rewrite (bind_Ret _ _ _ _ _ Ea).
    assert (Ht : (t < length h)%nat) by (eapply lookup_lt_Some; eauto).
    destruct (IH (λ a' h' d' Hin, Hbody a' h' d' (list_elem_of_further _ _ _ Hin))
                 (<[t := F a d]> h) (F a d)) as [E HLl];
      [now apply list_lookup_insert_eq|done|].
    rewrite E, list_insert_insert_eq. done.
Qed.

(** Which bits a fold of marking steps has set. *)
Lemma foldl_marks {A} (F : A → Buffer → Buffer) (Q : A → nat → Prop) (l : list A) :
  (∀ a acc o, a ∈ l → (o < length acc)%nat →
      F a acc !! o = Some true ↔ acc !! o = Some true ∨ Q a o) →
  (∀ a acc, length (F a acc) = length acc) →
  ∀ d o, (o < length d)%nat →
    foldl (λ acc a, F a acc) d l !! o = Some true
    ↔ d !! o = Some true ∨ ∃ a, a ∈ l ∧ Q a o.
Proof.
  intros HF HL. induction l as [|a l IH]; intros d o Ho; cbn [foldl].
  - split; [now left|]. intros [|(a & Ha & _)]; [done|]. now apply elem_of_nil in Ha.
  - rewrite IH; [|intros; apply HF; [now right|done]|now rewrite HL].
    rewrite HF; [|left|done]. split.
    + intros [[|]|(a' & Ha' & HQ)]; [now left|right; exists a; split; [left|done]|].
      right. exists a'. split; [now right|done].
    + intros [|(a' & Ha' & HQ)]; [now left; left|].
      apply elem_of_cons in Ha' as [->|Ha']; [left; now right|].
      right. now exists a'.
Qed.

Lemma foldl_length {A} (F : A → Buffer → Buffer) (l : list A) :
  (∀ a acc, length (F a acc) = length acc) →
  ∀ d, length (foldl (λ acc a, F a acc) d l) = length d.
Proof.
  intros HL. induction l as [|a l IH]; intros d; cbn; [done|]. now rewrite IH, HL.
Qed.

Lemma markCell_length cols row r c acc : length (markCell cols row r c acc) = length acc.
Proof. unfold markCell. destruct (isSet row c); [apply length_insert|done]. Qed.

Lemma markRow_length cols rows r acc : length (markRow cols rows r acc) = length acc.
Proof. unfold markRow. apply foldl_length. intros. apply markCell_length. Qed.

Lemma markCell_lookup cols row r c acc o :
  (o < length acc)%nat →
  markCell cols row r c acc !! o = Some true
  ↔ acc !! o = Some true ∨ (isSet row c = true ∧ (cols * r + c)%nat = o).
Proof.
  intros Ho. unfold markCell. destruct (isSet row c).
  - destruct (decide ((cols * r + c)%nat = o)) as [<-|Hne].
    + rewrite list_lookup_insert_eq by done. tauto.
    + rewrite list_lookup_insert_ne by done. tauto.
  - split; [now left|]. intros [|[]]; done.
Qed.

Lemma markRow_lookup cols rows r acc o :
  (o < length acc)%nat →
  markRow cols rows r acc !! o = Some true
  ↔ acc !! o = Some true
    ∨ ∃ c, c ∈ seq 0 cols
           ∧ (isSet (default EmptyString (rows !! r)) c = true ∧ (cols * r + c)%nat = o).
Proof.
  intros Ho. unfold markRow.
  apply (foldl_marks
           (λ c acc, markCell cols (default EmptyString (rows !! r)) r c acc)
           (λ c o, isSet (default EmptyString (rows !! r)) c = true ∧ (cols * r + c)%nat = o));
    [|intros; apply markCell_length|done].
  intros c acc' o' _ Ho'. now apply markCell_lookup.
Qed.

Lemma fromString_Ret row0 rest (h : heap) :
  let rows := row0 :: rest in
  let cols := String.length row0 in
  let extents : Size := [Z.of_nat cols; Z.of_nat (length rows)] in
  let zeros := replicate (bitbybit.storageBits (sizeToBitLength extents)) false in
  fromString rows h
  = Ret (mkMatrix extents (length h),
         h ++ [foldl (λ acc r, markRow cols rows r acc) zeros (seq 0 (length rows))]).
Proof.
  unfold fromString. cbv beta iota zeta.
  set (rows := row0 :: rest). set (cols := String.length row0).
  set (extents := [Z.of_nat cols; Z.of_nat (length rows)] : Size).
  set (zeros := replicate (bitbybit.storageBits (sizeToBitLength extents)) false).
  assert (Htotal : sizeToBitLength extents = Z.of_nat cols * Z.of_nat (length rows))
    by (unfold extents, sizeToBitLength; cbn [foldr]; lia).
  assert (H0 : 0 ≤ sizeToBitLength extents) by lia.
  rewrite (bind_Ret _ _ _ _ _ (createBuffer_Ret _ h H0)). fold zeros.
  pose proof (storageBits_ge _ H0) as Hst.
  set (L := bitbybit.storageBits (sizeToBitLength extents)) in *.
  destruct (forEach_pure (length h) L (λ r acc, markRow cols rows r acc)
              (λ rowIndex,
                 forEach (seq 0 cols) (λ columnIndex,
                   if isSet (default EmptyString (rows !! rowIndex)) columnIndex
                   then bitbybit.setBit (length h)
                          (Z.of_nat cols * Z.of_nat rowIndex + Z.of_nat columnIndex) true
                   else ret tt))
              (seq 0 (length rows))) with (h := h ++ [zeros]) (d := zeros) as [E _].
  - intros r h1 d1 Hr Hd1 HL1. apply elem_of_seq in Hr.
    split; [|rewrite markRow_length; exact HL1].
    destruct (forEach_pure (length h) L
                (λ c acc, markCell cols (default EmptyString (rows !! r)) r c acc)
                (λ columnIndex,
                   if isSet (default EmptyString (rows !! r)) columnIndex
                   then bitbybit.setBit (length h)
                          (Z.of_nat cols * Z.of_nat r + Z.of_nat columnIndex) true
                   else ret tt)
                (seq 0 cols)) with (h := h1) (d := d1) as [E _]; [|done|done|exact E].
    intros c h2 d2 Hc Hd2 HL2. apply elem_of_seq in Hc.
    split; [|rewrite markCell_length; exact HL2].
    unfold markCell. destruct (isSet _ c).
    + rewrite (setBit_Ret _ _ _ _ _ Hd2) by nia. do 4 f_equal. lia.
    + unfold ret. now rewrite (list_insert_id h2 _ _ Hd2).
  - apply lookup_fresh.
  - apply length_replicate.
  - rewrite (bind_Ret _ _ _ _ _ E). unfold ret. now rewrite insert_fresh.
Qed.

(** C6 (as the code has it): [fromString] does not compare the row
    lengths.  For any non-empty array of rows it returns a matrix of Size
    [length of the first row, number of rows]; the cell of column c and
    row r is false exactly when row r has the character '0' at c, so a
    shorter row is filled up with true bits and a longer row loses the
    characters beyond the first row's length. *)
Theorem fromString_unchecked row0 rest h :
  let rows := row0 :: rest in
  ∃ M h',
    fromString rows h = Ret (M, h') ∧
    size M = [Z.of_nat (String.length row0); Z.of_nat (length rows)] ∧
    valid h' M ∧ preserved h h' ∧
    ∀ r c row, rows !! r = Some row → (c < String.length row0)%nat →
      get M [Z.of_nat c; Z.of_nat r] h'
      = Ret (match String.get c row with
             | Some char => negb (Ascii.eqb char "0"%char)
             | None => true
             end).
Proof.
  intros rows. set (cols := String.length row0).
  set (extents := [Z.of_nat cols; Z.of_nat (length rows)] : Size).
  set (zeros := replicate (bitbybit.storageBits (sizeToBitLength extents)) false).
  set (d := foldl (λ acc r, markRow cols rows r acc) zeros (seq 0 (length rows))).
  assert (Htotal : sizeToBitLength extents = Z.of_nat cols * Z.of_nat (length rows))
    by (unfold extents, sizeToBitLength; cbn [foldr]; lia).
  assert (H0 : 0 ≤ sizeToBitLength extents) by lia.
  pose proof (storageBits_ge _ H0) as Hst.
  assert (Hlen : length d = bitbybit.storageBits (sizeToBitLength extents)).
  { unfold d. rewrite (foldl_length (λ r acc, markRow cols rows r acc)).
    - apply length_replicate.
    - intros. apply markRow_length. }
  exists (mkMatrix extents (length h)), (h ++ [d]).
  split; [apply fromString_Ret|]. split; [done|].
  split; [|split; [apply preserved_snoc|]].
  - split; [unfold extents; repeat constructor; lia|].
    exists d. split; [apply lookup_fresh|done].
  - intros r c row Hrow Hc. fold (isSet row c).
    pose proof (lookup_lt_Some _ _ _ Hrow) as Hr.
    assert (Eo : indicesToOffset extents [Z.of_nat c; Z.of_nat r]
                 = Z.of_nat (cols * r + c)) by (unfold indicesToOffset, extents; cbn; lia).
    assert (Ho : (cols * r + c < length d)%nat) by (fold cols in Hc; nia).
    destruct (lookup_lt_is_Some_2 d _ Ho) as [bit Hbit].
    unfold get. cbn [size buffer]. rewrite Eo.
    rewrite (getBit_Ret _ _ _ _ bit (lookup_fresh h d)); [|lia|now rewrite Nat2Z.id].
    f_equal.
    assert (Hmark : d !! (cols * r + c)%nat = Some true ↔ isSet row c = true).
    { unfold d.
      rewrite (foldl_marks (λ r acc, markRow cols rows r acc)
                 (λ r o, ∃ c, c ∈ seq 0 cols
                    ∧ (isSet (default EmptyString (rows !! r)) c = true
                       ∧ (cols * r + c)%nat = o))).
      - split.
        + intros [Hz|(r' & Hr' & c' & Hc' & Hset & E)].
          * apply lookup_replicate in Hz as [? _]. done.
          * apply elem_of_seq in Hr', Hc'. fold cols in Hc.
            destruct (Nat.div_mod_unique cols r' r c' c) as [-> ->]; [lia|lia|lia|].
            now rewrite Hrow in Hset.
        + intros Hset. right. exists r. split; [apply elem_of_seq; lia|].
          exists c. split; [apply elem_of_seq; fold cols in Hc; lia|].
          now rewrite Hrow.
      - intros r' acc o _ Ho'. now apply markRow_lookup.
      - intros. apply markRow_length.
      - unfold zeros. rewrite length_replicate. rewrite <- Hlen. exact Ho. }
    destruct bit, (isSet row c); try done.
    + now apply Hmark in Hbit.
    + destruct Hmark as [_ Hm]. rewrite Hm in Hbit; done.
Qed.

End FromString.

(** ** The growth path on a negative index *)

Section NegativeIndex.

Lemma fromSize_valid (extents : Size) h M h' :
  Forall (λ s, 0 ≤ s) extents → fromSize extents h = Ret (M, h') →
  valid h' M ∧ size M = extents.
Proof.
  intros Hs. unfold fromSize. rewrite (new_Ret _ h Hs). intros [= <- <-].
  split; [|done]. split; [done|]. eexists. split; [apply lookup_fresh|].
  apply length_replicate.
Qed.

(** C3 (what the code does): on [fromSize([2,2]).set([-1,0], true)] the
    nested calls of [set] never reach the in-bounds write, whatever the
    number of nested calls allowed. *)
Theorem set_negative_index_never_returns :
  ∃ M h, fromSize [2; 2] [] = Ret (M, h) ∧
         ∀ fuel, set fuel M [-1; 0] true h = OutOfFuel.
Proof.
  exists (mkMatrix [2; 2] 0), [replicate 8 false]. split; [reflexivity|]. intros fuel.
  apply set_negative_OutOfFuel; [left; lia| |reflexivity].
  apply (fromSize_valid [2; 2] []); [repeat constructor; lia|reflexivity].
Qed.

(** C2 (what the code does): on [fromSize([1]).set([-1], true)] the planner
    asks for Size [2] and origin shift [1], the old content is pasted at
    that shift, and [set] is called again with the indices [-1] as given;
    they lie outside the grown matrix too, and no matrix is ever returned. *)
Theorem expansion_reuses_untranslated_indices :
  ∃ M h, fromSize [1] [] = Ret (M, h) ∧
         checkExpansion (size M) [-1] = Some (Expansion.mk [2] [1]) ∧
         (∀ fuel, ∃ grown h2,
             set (S fuel) M [-1] true h = set fuel grown [-1] true h2 ∧
             size grown = [2] ∧ ¬ inRange (size grown) [-1]) ∧
         ∀ fuel M2 h2, set fuel M [-1] true h ≠ Ret (M2, h2).
Proof.
  exists (mkMatrix [1] 0), [replicate 8 false]. split; [reflexivity|]. split; [reflexivity|].
  assert (Hv : valid [replicate 8 false] (mkMatrix [1] 0))
    by (apply (fromSize_valid [1] []); [repeat constructor; lia|reflexivity]).
  split.
  - intros fuel.
    destruct (setExternalBit_step (set fuel) [replicate 8 false] (mkMatrix [1] 0)
                (replicate 8 false) [-1] true Hv eq_refl eq_refl) as (E & _ & _).
    eexists _, _. split; [exact E|]. split; [reflexivity|].
    apply negative_outside. left. lia.
  - intros fuel M2 h2.
    rewrite (set_negative_OutOfFuel [-1] true fuel); [done|left; lia|exact Hv|reflexivity].
Qed.

End NegativeIndex.

(** ** Concrete inputs *)

Section Samples.

(** Validity of a matrix given in full, by evaluation. *)
Ltac concrete_valid :=
  split; [repeat constructor; lia | eexists; split; reflexivity].

(** C4: the indices [2,0] are outside the Size [2,2], and [get] returns a
    value for them: the bit stored at offset 2, which is the set bit of the
    cell [0,1]; the indices [4,0], outside as well, give the clear bit at
    offset 4 of the padding. *)
Lemma get_out_of_range_returns :
  ¬ inRange (size checker) [2; 0] ∧ ¬ inRange (size checker) [4; 0] ∧
  sampleStore !! buffer checker
    = Some [false; true; true; false; false; false; false; false] ∧
  indicesToOffset (size checker) [2; 0] = 2 ∧
  get checker [2; 0] sampleStore = Ret true ∧
  get checker [0; 1] sampleStore = Ret true ∧
  get checker [0; 0] sampleStore = Ret false ∧
  get checker [4; 0] sampleStore = Ret false.
Proof.
  split; [|split; [|repeat split; reflexivity]];
    intros Hin; inversion Hin as [|s i ss il Hi _]; subst; lia.
Qed.

(** C5: [fromDimension(2)] has extent 0, not 1, on both axes and no bit
    at all. *)
Lemma fromDimension_not_unit :
  fromDimension 2 [] = Ret (mkMatrix [0; 0] 0, [[]]) ∧
  size (mkMatrix [0; 0] 0) ≠ [1; 1] ∧ bitLength (mkMatrix [0; 0] 0) ≠ 1.
Proof. split; [reflexivity|]. split; [discriminate|]. cbn. lia. Qed.

(** C6: rows of lengths 2 and 1 are accepted, the short row being filled
    up with a set bit; rows of lengths 1 and 2 are accepted, the long row
    losing its second character. *)
Lemma fromString_accepts_unequal_rows :
  String.length "01" ≠ String.length "1" ∧
  fromString ["01"; "1"]%string []
  = Ret (mkMatrix [2; 2] 0, [[false; true; true; true; false; false; false; false]]) ∧
  fromString ["0"; "11"]%string []
  = Ret (mkMatrix [1; 2] 0, [[false; true; false; false; false; false; false; false]]).
Proof. split; [cbn; lia|]. split; reflexivity. Qed.

(** C7: a stream declaring Size [4] whose runs add up to 6 is decoded to
    a matrix of four set bits. *)
Lemma decode_accepts_wrong_bit_count :
  sumZ [0; 6] ≠ sizeToBitLength [4] ∧
  decode (codec := varint) (vlq_encode [1; 4; 0; 6]) []
  = Ret (mkMatrix [4] 0, [[true; true; true; true; true; true; false; false]]).
Proof. split; [cbn; lia|]. vm_compute. reflexivity. Qed.

(** The round trip on the 2×2 sample, with the varint codec. *)
Lemma roundtrip_exact_runs_witness :
  valid sampleStore checker ∧ Forall exactRun (setRunsOf sampleStore checker) ∧
  ∃ encoded M' h',
    encode (codec := varint) checker sampleStore = Ret encoded ∧
    decode (codec := varint) encoded sampleStore = Ret (M', h') ∧
    isSameAs M' checker h' = Ret true.
Proof.
  assert (Hv : valid sampleStore checker) by concrete_valid.
  assert (Hshort : Forall exactRun (setRunsOf sampleStore checker))
    by (repeat constructor; unfold exactRun; lia).
  split; [exact Hv|]. split; [exact Hshort|].
  destruct (roundtrip_exact_runs (codec := varint) sampleStore checker Hv)
    as (encoded & runLengths & Henc & _ & _ & _ & _ & _ & Hback).
  destruct (Hback Hshort) as (M' & h' & Hdec & _ & _ & _ & Hsame & _).
  exists encoded, M', h'. repeat split; assumption.
Defined.

(** Setting cell [1,1] of the 2×2 sample. *)
Lemma set_get_coherence_witness :
  valid sampleStore checker ∧ inRange (size checker) [1; 1] ∧
  ∃ R h', set 1 checker [1; 1] true sampleStore = Ret (R, h') ∧ get R [1; 1] h' = Ret true.
Proof.
  assert (Hv : valid sampleStore checker) by concrete_valid.
  assert (Hin : inRange (size checker) [1; 1]) by (repeat constructor; lia).
  split; [exact Hv|]. split; [exact Hin|].
  destruct (set_get_coherence 0 sampleStore checker [1; 1] true Hv Hin)
    as (R & h' & E & _ & _ & Hget & _).
  exists R, h'. split; assumption.
Defined.

(** Pasting the 1×1 patch at [1,1] into the 2×2 sample. *)
Lemma paste_composition_witness :
  valid sampleStore checker ∧ valid sampleStore dot ∧ pasteFits checker dot [1; 1] ∧
  ∃ R h', paste checker dot [1; 1] sampleStore = Ret (R, h') ∧
          get R [1; 1] h' = Ret true ∧ preserved sampleStore h'.
Proof.
  assert (Hv : valid sampleStore checker) by concrete_valid.
  assert (Hd : valid sampleStore dot) by concrete_valid.
  assert (Hfit : pasteFits checker dot [1; 1]).
  { intros indices Hin. inversion Hin as [|s i ss il Hi Hrest]; subst.
    inversion Hrest as [|s' j ss' jl Hj Hnil]; subst. inversion Hnil; subst.
    exists [i + 1; j + 1]. split; [reflexivity|]. repeat constructor; lia. }
  split; [exact Hv|]. split; [exact Hd|]. split; [exact Hfit|].
  destruct (paste_composition sampleStore checker dot [1; 1] Hv Hd Hfit)
    as (R & h' & E & _ & _ & Hcov & _ & Hpres & _).
  exists R, h'. split; [exact E|]. split; [|exact Hpres].
  destruct (Hcov [0; 0] [1; 1]) as (bit & Hbit & Hget);
    [repeat constructor; lia|reflexivity|].
  injection Hbit as <-. exact Hget.
Defined.

(** The listings of the 2×2 sample. *)
Lemma listing_coverage_witness :
  valid sampleStore checker ∧
  ∃ trues falses entries,
    list_ checker true sampleStore = Ret trues ∧ list_ checker false sampleStore = Ret falses ∧
    listBit checker sampleStore = Ret entries ∧
    Z.of_nat (length trues) + Z.of_nat (length falses) = bitLength checker ∧
    Z.of_nat (length entries) = bitLength checker.
Proof.
  assert (Hv : valid sampleStore checker) by concrete_valid.
  split; [exact Hv|].
  destruct (listing_coverage sampleStore checker Hv)
    as (trues & falses & entries & Ht & Hf & He & Hsum & Hlen & _).
  exists trues, falses, entries. repeat split; assumption.
Defined.

(** A stream declaring Size [4] with runs 0 and 6. *)
Lemma decode_unchecked_witness :
  vlq_decode (VlqCodec := varint) (vlq_encode [1; 4; 0; 6])
    = Z.of_nat (length [4]) :: [4] ++ [0; 6] ∧
  Forall (λ s, 0 ≤ s) [4] ∧ Forall (λ n, 0 ≤ n) [0; 6] ∧
  Forall exactRun (setRuns false (consumed (sizeToBitLength [4]) 0 [0; 6])) ∧
  sizeToBitLength [4] ≤ sumZ (consumed (sizeToBitLength [4]) 0 [0; 6])
    ≤ Z.of_nat (bitbybit.storageBits (sizeToBitLength [4])) ∧
  ∃ M h', decode (codec := varint) (vlq_encode [1; 4; 0; 6]) [] = Ret (M, h') ∧
          size M = [4] ∧ get M [3] h' = Ret true.
Proof.
  assert (H1 : vlq_decode (VlqCodec := varint) (vlq_encode [1; 4; 0; 6])
               = Z.of_nat (length [4]) :: [4] ++ [0; 6]) by reflexivity.
  assert (H2 : Forall (λ s, 0 ≤ s) [4]) by (repeat constructor; lia).
  assert (H3 : Forall (λ n, 0 ≤ n) [0; 6]) by (repeat constructor; lia).
  assert (Hx : Forall exactRun (setRuns false (consumed (sizeToBitLength [4]) 0 [0; 6])))
    by (repeat constructor; unfold exactRun; lia).
  assert (H4 : sizeToBitLength [4] ≤ sumZ (consumed (sizeToBitLength [4]) 0 [0; 6])
               ≤ Z.of_nat (bitbybit.storageBits (sizeToBitLength [4]))) by (vm_compute; split; discriminate).
  split; [exact H1|]. split; [exact H2|]. split; [exact H3|]. split; [exact Hx|].
  split; [exact H4|].
  destruct (decode_unchecked (codec := varint) _ [4] [0; 6] [] H1 H2 H3 Hx H4)
    as (M & h' & E & Hsize & _ & _ & Hcells).
  exists M, h'. split; [exact E|]. split; [exact Hsize|].
  destruct (Hcells [3]) as (bit & Hbit & Hget); [repeat constructor; lia|].
  injection Hbit as <-. exact Hget.
Defined.

(** Reading the 2×2 sample at [2,0], whose offset is that of [0,1]. *)
Lemma get_unchecked_witness :
  valid sampleStore checker ∧
  sampleStore !! buffer checker
    = Some [false; true; true; false; false; false; false; false] ∧
  length ([2; 0] : Indices) = length (size checker) ∧
  0 ≤ indicesToOffset (size checker) [2; 0] < bitLength checker ∧
  get checker [2; 0] sampleStore = Ret true ∧ get checker [0; 1] sampleStore = Ret true.
Proof.
  assert (Hv : valid sampleStore checker) by concrete_valid.
  assert (Hb : sampleStore !! buffer checker
               = Some [false; true; true; false; false; false; false; false]) by reflexivity.
  assert (Hl : length ([2; 0] : Indices) = length (size checker)) by reflexivity.
  assert (Ho : 0 ≤ indicesToOffset (size checker) [2; 0] < bitLength checker)
    by (vm_compute; split; [discriminate|reflexivity]).
  split; [exact Hv|]. split; [exact Hb|]. split; [exact Hl|]. split; [exact Ho|].
  destruct (get_unchecked sampleStore checker _ [2; 0] Hv Hb Hl Ho)
    as (_ & _ & bit & Hbit & Hget & Hcell).
  injection Hbit as <-. split; [exact Hget|exact Hcell].
Defined.

(** Three dimensions. *)
Lemma fromDimension_empty_witness :
  0 < 3 < 2 ^ 32 ∧
  ∃ M, fromDimension 3 [] = Ret (M, [] ++ [[]]) ∧ size M = [0; 0; 0] ∧ bitLength M = 0.
Proof.
  assert (Hd : 0 < 3 < 2 ^ 32) by (vm_compute; split; reflexivity).
  split; [exact Hd|].
  destruct (fromDimension_empty 3 [] Hd) as (M & E & _ & _ & Hbits & _).
  exists M. split; [exact E|]. split; [|exact Hbits].
  injection E as <-. reflexivity.
Defined.

End Samples.

(** ** How in-bounds calls of set compose *)

Section SetComposition.

(** One in-bounds [set], as seen by a reader of the result. *)
Lemma set_inRange_step fuel h M indices state :
  valid h M → inRange (size M) indices →
  ∃ R h',
    set (S fuel) M indices state h = Ret (R, h') ∧
    size R = size M ∧ valid h' R ∧ preserved h h' ∧
    ∀ other, inRange (size M) other →
      ∃ bit, get M other h = Ret bit ∧
             get R other h' = Ret (if bool_decide (other = indices) then state else bit).
Proof.
  intros Hv Hin. destruct (Hv) as [_ (d & Hd & _)].
  eexists _, _. split; [exact (set_inRange_Ret fuel h M d indices state Hv Hd Hin)|].
  split; [done|]. split; [now apply valid_set_result|]. split; [apply preserved_snoc|].
  intros other Hother. exact (set_inRange_read h M d indices state other Hv Hd Hin Hother).
Qed.

Lemma Ret_inj {A} (x y : A) : Ret x = Ret y → x = y.
Proof. now intros [= ->]. Qed.

Lemma get_agree M indices h (x y : bool) :
  get M indices h = Ret x → get M indices h = Ret y → x = y.
Proof. intros Hx Hy. rewrite Hx in Hy. now apply Ret_inj. Qed.

(** X3: Writes to two different cells can be made in either order. *)
Theorem set_commutes fuel h M i j v w :
  valid h M → inRange (size M) i → inRange (size M) j → i ≠ j →
  ∃ A1 h1 A h2 B1 h3 B h4,
    set (S fuel) M i v h = Ret (A1, h1) ∧ set (S fuel) A1 j w h1 = Ret (A, h2) ∧
    set (S fuel) M j w h2 = Ret (B1, h3) ∧ set (S fuel) B1 i v h3 = Ret (B, h4) ∧
    isSameAs A B h4 = Ret true ∧ sameCells h4 A B.
Proof.
  intros Hv Hi Hj Hne.
  destruct (set_inRange_step fuel h M i v Hv Hi) as (A1 & h1 & E1 & S1 & V1 & P1 & R1).
  destruct (set_inRange_step fuel h1 A1 j w V1) as (A & h2 & E2 & S2 & V2 & P2 & R2);
    [now rewrite S1|].
  assert (P12 : preserved h h2) by exact (preserved_trans _ _ _ P1 P2).
  assert (Hv2 : valid h2 M) by exact (valid_preserved _ _ _ P12 Hv).
  destruct (set_inRange_step fuel h2 M j w Hv2 Hj) as (B1 & h3 & E3 & S3 & V3 & P3 & R3).
  destruct (set_inRange_step fuel h3 B1 i v V3) as (B & h4 & E4 & S4 & V4 & P4 & R4);
    [now rewrite S3|].
  assert (Hsame : sameCells h4 A B).
  { split; [congruence|]. intros cell Hcell. rewrite S2, S1 in Hcell.
    destruct (R1 cell Hcell) as (m & Hm & HA1).
    destruct (R2 cell) as (a1 & HA1' & HA); [now rewrite S1|].
    destruct (R3 cell Hcell) as (m' & Hm' & HB1).
    destruct (R4 cell) as (b1 & HB1' & HB); [now rewrite S3|].
    assert (m' = m) as ->.
    { eapply get_agree; [exact Hm'|]. exact (get_preserved _ _ _ _ _ P12 Hm). }
    pose proof (get_agree _ _ _ _ _ HA1' HA1) as ->.
    pose proof (get_agree _ _ _ _ _ HB1' HB1) as ->.
    eexists. split; [|exact HB].
    eapply get_preserved; [eapply preserved_trans; [exact P3|exact P4]|].
    rewrite HA. f_equal. repeat case_bool_decide; congruence. }
  exists A1, h1, A, h2, B1, h3, B, h4. repeat (split; [done|]).
  split; [|done]. unfold isSameAs. apply isSame_sameCells; [apply V2|done].
Qed.

(** X4: The last write to a cell wins. *)
Theorem set_overwrites fuel h M i v w :
  valid h M → inRange (size M) i →
  ∃ A1 h1 A h2 B h3,
    set (S fuel) M i v h = Ret (A1, h1) ∧ set (S fuel) A1 i w h1 = Ret (A, h2) ∧
    set (S fuel) M i w h2 = Ret (B, h3) ∧
    isSameAs A B h3 = Ret true ∧ sameCells h3 A B.
Proof.
  intros Hv Hi.
  destruct (set_inRange_step fuel h M i v Hv Hi) as (A1 & h1 & E1 & S1 & V1 & P1 & R1).
  destruct (set_inRange_step fuel h1 A1 i w V1) as (A & h2 & E2 & S2 & V2 & P2 & R2);
    [now rewrite S1|].
  assert (P12 : preserved h h2) by exact (preserved_trans _ _ _ P1 P2).
  assert (Hv2 : valid h2 M) by exact (valid_preserved _ _ _ P12 Hv).
  destruct (set_inRange_step fuel h2 M i w Hv2 Hi) as (B & h3 & E3 & S3 & V3 & P3 & R3).
  assert (Hsame : sameCells h3 A B).
  { split; [congruence|]. intros cell Hcell. rewrite S2, S1 in Hcell.
    destruct (R1 cell Hcell) as (m & Hm & HA1).
    destruct (R2 cell) as (a1 & HA1' & HA); [now rewrite S1|].
    destruct (R3 cell Hcell) as (m' & Hm' & HB).
    assert (m' = m) as ->.
    { eapply get_agree; [exact Hm'|]. exact (get_preserved _ _ _ _ _ P12 Hm). }
    pose proof (get_agree _ _ _ _ _ HA1' HA1) as ->.
    eexists. split; [|exact HB].
    eapply get_preserved; [exact P3|].
    rewrite HA. f_equal. repeat case_bool_decide; congruence. }
  exists A1, h1, A, h2, B, h3. repeat (split; [done|]).
  split; [|done]. unfold isSameAs. apply isSame_sameCells; [apply V2|done].
Qed.

(** X5: Writing the value a cell already holds gives an equal matrix (in a
    buffer of its own). *)
Theorem set_same_value fuel h M i v :
  valid h M → inRange (size M) i → get M i h = Ret v →
  ∃ R h',
    set (S fuel) M i v h = Ret (R, h') ∧ buffer R ≠ buffer M ∧
    isSameAs R M h' = Ret true ∧ sameCells h' R M.
Proof.
  intros Hv Hi Hget.
  destruct (set_inRange_step fuel h M i v Hv Hi) as (R & h' & E & S & V & P & Rd).
  assert (Hsame : sameCells h' R M).
  { split; [done|]. intros cell Hcell. rewrite S in Hcell.
    destruct (Rd cell Hcell) as (m & Hm & HR).
    exists m. split; [|eapply get_preserved; [exact P|exact Hm]].
    rewrite HR. case_bool_decide as Ec; [|done].
    subst cell. f_equal. exact (get_agree _ _ _ _ _ Hget Hm). }
  exists R, h'. split; [done|]. split.
  - destruct (Hv) as [_ (d & Hd & _)].
    rewrite (set_inRange_Ret fuel h M d i v Hv Hd Hi) in E. injection E as <- _. cbn [buffer].
    apply lookup_lt_Some in Hd. lia.
  - split; [|done]. unfold isSameAs. apply isSame_sameCells; [apply V|done].
Qed.

End SetComposition.

(** ** What list yields, exactly *)

Section ListExact.

Lemma StronglySorted_filter {A} (R : relation A) (P : A → Prop) `{∀ x, Decision (P x)} l :
  Sorted.StronglySorted R l → Sorted.StronglySorted R (filter P l).
Proof.
  induction 1 as [|a l Hl IH Ha]; [constructor|].
  rewrite filter_cons. destruct (decide (P a)); [|done].
  constructor; [done|]. apply Forall_forall. intros x Hx. apply list_elem_of_In in Hx.
  apply list_elem_of_filter in Hx as [_ Hx].
  rewrite Forall_forall in Ha. apply Ha. now apply list_elem_of_In.
Qed.

Lemma StronglySorted_offsets a n :
  Sorted.StronglySorted Z.lt (map (λ k, 0 + Z.of_nat k) (seq a n)).
Proof.
  revert a. induction n as [|n IH]; intros a; cbn [seq map]; constructor; [apply IH|].
  apply Forall_forall. intros x Hx. apply in_map_iff in Hx as (k & <- & Hk).
  apply in_seq in Hk. lia.
Qed.

Lemma listedOffsets_elem (b : Buffer) state N o :
  0 ≤ N →
  o ∈ listedOffsets b state N ↔ 0 ≤ o < N ∧ default false (b !! Z.to_nat o) = state.
Proof.
  intros HN. unfold listedOffsets. rewrite list_elem_of_filter, list_elem_of_fmap. split.
  - intros [Hbit (k & -> & Hk)]. apply elem_of_seq in Hk. split; [lia|done].
  - intros [Ho Hbit]. split; [done|]. exists (Z.to_nat o). split; [lia|].
    apply elem_of_seq. lia.
Qed.

Lemma list__listed (h : heap) M (b : Buffer) state :
  valid h M → h !! buffer M = Some b →
  list_ M state h = Ret (map (offsetToIndices (size M)) (listedOffsets b state (bitLength M))).
Proof. apply list__Ret. Qed.

(** The cells [list] yields are exactly the cells holding [state]. *)
Lemma listed_iff (h : heap) M (b : Buffer) state cell :
  valid h M → h !! buffer M = Some b →
  cell ∈ map (offsetToIndices (size M)) (listedOffsets b state (bitLength M))
  ↔ inRange (size M) cell ∧ get M cell h = Ret state.
Proof.
  intros Hv Hb. destruct (Hv) as [Hs _].
  pose proof (valid_bitLength _ _ Hv) as HN. pose proof (valid_storage _ _ _ Hv Hb) as Hst.
  rewrite list_elem_of_fmap. split.
  - intros (o & -> & Ho). apply listedOffsets_elem in Ho as [Ho Hbit]; [|done].
    assert (Hin : inRange (size M) (offsetToIndices (size M) o))
      by now apply offsetToIndices_inRange.
    split; [done|].
    destruct (get_inRange h M b _ Hs Hb Hst Hin) as (bit & Hlook & Hget).
    rewrite indicesToOffset_offsetToIndices in Hlook by done.
    rewrite Hlook in Hbit. cbn in Hbit. now subst.
  - intros [Hin Hget]. pose proof (inRange_offset _ _ Hin) as Ho.
    exists (indicesToOffset (size M) cell). split.
    + symmetry. now apply offsetToIndices_indicesToOffset.
    + apply listedOffsets_elem; [done|]. split; [done|].
      now rewrite (get_Ret_inv _ _ _ _ _ Hb Hget).
Qed.

Lemma listed_offsets (h : heap) M (b : Buffer) state :
  valid h M →
  map (indicesToOffset (size M))
      (map (offsetToIndices (size M)) (listedOffsets b state (bitLength M)))
  = listedOffsets b state (bitLength M).
Proof.
  intros Hv. rewrite map_map. rewrite <- (map_id (listedOffsets _ _ _)) at 2.
  apply map_ext_in. intros o Ho. apply list_elem_of_In in Ho.
  apply listedOffsets_elem in Ho as [Ho _]; [|exact (valid_bitLength _ _ Hv)].
  apply indicesToOffset_offsetToIndices; [apply Hv|done].
Qed.

Lemma listedOffsets_sorted (b : Buffer) state N :
  Sorted.StronglySorted Z.lt (listedOffsets b state N).
Proof. apply StronglySorted_filter, StronglySorted_offsets. Qed.

Lemma StronglySorted_lt_NoDup (l : list Z) : Sorted.StronglySorted Z.lt l → NoDup l.
Proof.
  induction 1 as [|a l Hl IH Ha]; constructor; [|done].
  intros Hin. rewrite Forall_forall in Ha. apply list_elem_of_In, Ha in Hin. lia.
Qed.

Lemma listed_NoDup (h : heap) M (b : Buffer) state :
  valid h M →
  NoDup (map (offsetToIndices (size M)) (listedOffsets b state (bitLength M))).
Proof.
  intros Hv. apply (NoDup_fmap_1 (indicesToOffset (size M))).
  change (NoDup (map (indicesToOffset (size M))
            (map (offsetToIndices (size M)) (listedOffsets b state (bitLength M))))).
  rewrite (listed_offsets h) by done.
  apply StronglySorted_lt_NoDup, listedOffsets_sorted.
Qed.

(** X6: [list(state)] yields exactly the cells of the matrix that hold
    [state], each of them once, in strictly increasing offset order. *)
Theorem list_exact h M state :
  valid h M →
  ∃ cells,
    list_ M state h = Ret cells ∧
    (∀ cell, cell ∈ cells ↔ inRange (size M) cell ∧ get M cell h = Ret state) ∧
    NoDup cells ∧
    Sorted.StronglySorted Z.lt (map (indicesToOffset (size M)) cells).
Proof.
  intros Hv. destruct (Hv) as [_ (b & Hb & _)].
  eexists. split; [exact (list__listed h M b state Hv Hb)|].
  split; [intros cell; now apply listed_iff|].
  split; [now apply (listed_NoDup h)|].
  rewrite (listed_offsets h) by done. apply listedOffsets_sorted.
Qed.

End ListExact.

(** ** fromSize, and set on indices without a negative component *)

Section Growth.

Lemma zero_buffer_read (h : heap) M n cell bit :
  h !! buffer M = Some (replicate n false) → get M cell h = Ret bit → bit = false.
Proof.
  intros Hb Hget. apply (get_Ret_inv _ _ _ _ _ Hb) in Hget.
  now apply lookup_replicate in Hget as [-> _].
Qed.

(** X1: [fromSize] builds the all-false matrix of the given extents, in a
    buffer of its own. *)
Theorem fromSize_all_false (extents : Size) h :
  Forall (λ s, 0 ≤ s) extents →
  ∃ M h',
    fromSize extents h = Ret (M, h') ∧ size M = extents ∧
    valid h' M ∧ preserved h h' ∧
    (∀ cell, inRange extents cell → get M cell h' = Ret false) ∧
    list_ M true h' = Ret [].
Proof.
  intros Hs.
  set (zeros := replicate (bitbybit.storageBits (sizeToBitLength extents)) false).
  set (M := mkMatrix extents (length h)).
  assert (Hb : (h ++ [zeros]) !! buffer M = Some zeros) by apply lookup_fresh.
  assert (Hv : valid (h ++ [zeros]) M).
  { split; [done|]. exists zeros. split; [done|apply length_replicate]. }
  exists M, (h ++ [zeros]). split; [exact (new_Ret extents h Hs)|]. split; [done|].
  split; [done|]. split; [apply preserved_snoc|]. split.
  - intros cell Hcell.
    destruct (get_inRange _ M zeros cell Hs Hb (valid_storage _ _ _ Hv Hb) Hcell)
      as (bit & _ & Hget).
    now rewrite Hget, (zero_buffer_read _ _ _ _ _ Hb Hget).
  - rewrite (list__listed _ M zeros true Hv Hb). f_equal.
    apply elem_of_nil_inv. intros cell Hcell.
    apply (listed_iff _ M zeros true cell Hv Hb) in Hcell as [_ Hget].
    now apply (zero_buffer_read _ _ _ _ _ Hb) in Hget.
Qed.

Lemma grown_size_nonneg (size : Size) (indices : Indices) :
  Forall (λ i, 0 ≤ i) indices →
  zip_with (λ s i, high s i - low i + 1) size indices
  = zip_with (λ s i, Z.max s (i + 1)) size indices.
Proof.
  intros Hi. revert size. induction Hi as [|i indices Hi _ IH]; intros [|s size]; cbn; try done.
  rewrite IH. f_equal. unfold high, low. lia.
Qed.

Lemma inRange_size_unchanged (size : Size) (indices : Indices) :
  inRange size indices → zip_with (λ s i, Z.max s (i + 1)) size indices = size.
Proof. induction 1 as [|s i size indices Hi _ IH]; cbn; [done|]. rewrite IH. f_equal. lia. Qed.

Lemma inRange_grown (size : Size) (indices cell : Indices) :
  length indices = length size → inRange size cell →
  inRange (zip_with (λ s i, Z.max s (i + 1)) size indices) cell.
Proof.
  intros Hl Hin. revert indices Hl.
  induction Hin as [|s c size cell Hc _ IH]; intros [|i indices] Hl; cbn in *; try done.
  - constructor.
  - constructor; [lia|]. apply IH. lia.
Qed.

(** [set] on indices without a negative component, cell by cell. *)
Lemma set_nonnegative_cells fuel h M indices state :
  valid h M → length indices = length (size M) → Forall (λ i, 0 ≤ i) indices →
  ∃ R h',
    set (S (S fuel)) M indices state h = Ret (R, h') ∧
    size R = zip_with (λ s i, Z.max s (i + 1)) (size M) indices ∧
    valid h' R ∧ preserved h h' ∧
    ∀ cell, inRange (size R) cell →
      ∃ bit, get R cell h' = Ret (if bool_decide (cell = indices) then state else bit) ∧
             (inRange (size M) cell → get M cell h = Ret bit) ∧
             (¬ inRange (size M) cell → bit = false).
Proof.
  intros Hv Hl Hnn. destruct (Hv) as [Hs (d & Hd & _)].
  destruct (checkExpansion (size M) indices) as [e|] eqn:Eplan.
  - assert (Hout : ¬ inRange (size M) indices)
      by (intros Hin; now rewrite (checkExpansion_inRange _ _ Hin) in Eplan).
    set (originShift := map (λ i, - low i) indices).
    set (size' := zip_with (λ s i, high s i - low i + 1) (size M) indices).
    set (zeros := replicate (bitbybit.storageBits (sizeToBitLength size')) false).
    destruct (setExternalBit_step (set (S fuel)) h M d indices state Hv Hd Hl)
      as (Estep & Hgrown & Hpres).
    fold size' zeros originShift in Estep, Hgrown, Hpres.
    set (d2 := pasted size' (size M) originShift d zeros (seq 0 (Z.to_nat (bitLength M)))) in *.
    set (h2 := (h ++ [zeros]) ++ [d2]) in *.
    set (grown := mkMatrix size' (S (length h))) in *.
    assert (Hd2 : h2 !! buffer grown = Some d2).
    { unfold h2, grown. cbn [buffer].
      replace (S (length h)) with (length (h ++ [zeros])) by (rewrite length_app; cbn; lia).
      apply lookup_fresh. }
    assert (Hin' : inRange (size grown) indices) by now apply nonneg_inRange_grown.
    set (fresh := mkMatrix size' (length h)).
    assert (Hfresh : valid (h ++ [zeros]) fresh).
    { split; [now apply grown_nonneg|]. exists zeros.
      split; [apply lookup_fresh|apply length_replicate]. }
    assert (HM : valid (h ++ [zeros]) M)
      by (eapply valid_preserved; [apply preserved_snoc|done]).
    destruct (paste_cells (h ++ [zeros]) fresh M originShift zeros d
                Hfresh HM (expansion_fits M indices (length h) Hl) (lookup_fresh h zeros)
                (lookup_app_l_Some _ _ _ _ Hd)) as [Hcov Hunc].
    cbn [size fresh] in Hcov, Hunc. rewrite length_app, Nat.add_1_r in Hcov, Hunc.
    fold grown d2 h2 in Hcov, Hunc.
    eexists _, _. split.
    { rewrite set_S, checkExpansion_Some by done. fold size' originShift. rewrite Estep.
      exact (set_inRange_Ret fuel h2 grown _ indices state Hgrown Hd2 Hin'). }
    split; [apply grown_size_nonneg, Hnn|]. split; [now apply valid_set_result|].
    split; [eapply preserved_trans; [exact Hpres|apply preserved_snoc]|].
    intros cell Hcell. cbn [size] in Hcell.
    destruct (set_inRange_read h2 grown d2 indices state cell Hgrown Hd2 Hin' Hcell)
      as (bit & Hbit & Hread).
    exists bit. split; [exact Hread|]. split.
    + intros HcellM.
      assert (Hlc : length cell = length indices) by (rewrite Hl; now apply inRange_length).
      destruct (Hcov cell cell HcellM) as (b' & HgetM & Hget2).
      { unfold translate, originShift. rewrite length_map, Hlc, Nat.leb_refl.
        now rewrite nonneg_no_shift. }
      rewrite (get_agree _ _ _ _ _ Hbit Hget2).
      unfold get, bitbybit.getBit in HgetM |- *.
      now rewrite (lookup_app_l_Some _ _ _ _ Hd) in HgetM; rewrite Hd.
    + intros HcellM.
      destruct (Hunc cell Hcell) as (b' & Hgetf & Hget2).
      { intros covered Hcovered Ht. apply translate_Some in Ht as [Ht _].
        unfold originShift in Ht. rewrite nonneg_no_shift in Ht.
        - subst cell. now apply HcellM.
        - done.
        - rewrite Hl. now apply inRange_length. }
      rewrite (get_agree _ _ _ _ _ Hbit Hget2).
      exact (zero_buffer_read _ fresh _ _ _ (lookup_fresh h zeros) Hgetf).
  - assert (Hin : inRange (size M) indices) by now apply checkExpansion_None.
    destruct (set_inRange_step (S fuel) h M indices state Hv Hin)
      as (R & h' & E & HS & HV & HP & HR).
    exists R, h'. split; [done|]. split; [now rewrite HS, inRange_size_unchanged|].
    split; [done|]. split; [done|].
    intros cell Hcell. rewrite HS in Hcell.
    destruct (HR cell Hcell) as (bit & HgetM & HgetR).
    exists bit. split; [done|]. split; [done|]. now intros [].
Qed.

(** X2: [set] on indices without a negative component, inside or outside the
    bounds: one nested call at most, the extents grow to hold the indices
    and never shrink, the addressed cell reads [state], every other old
    cell keeps its bit at its indices, every new cell is false, and no
    existing buffer is written. *)
Theorem set_nonnegative fuel h M indices state :
  valid h M → length indices = length (size M) → Forall (λ i, 0 ≤ i) indices →
  ∃ R h',
    set (S (S fuel)) M indices state h = Ret (R, h') ∧
    size R = zip_with (λ s i, Z.max s (i + 1)) (size M) indices ∧
    valid h' R ∧ preserved h h' ∧
    get R indices h' = Ret state ∧
    (∀ cell, inRange (size M) cell → cell ≠ indices →
       ∃ bit, get M cell h = Ret bit ∧ get R cell h' = Ret bit) ∧
    (∀ cell, inRange (size R) cell → ¬ inRange (size M) cell → cell ≠ indices →
       get R cell h' = Ret false).
Proof.
  intros Hv Hl Hnn.
  destruct (set_nonnegative_cells fuel h M indices state Hv Hl Hnn)
    as (R & h' & E & HS & HV & HP & Hcells).
  assert (Hin : inRange (size R) indices).
  { rewrite HS, <- grown_size_nonneg by done. now apply nonneg_inRange_grown. }
  exists R, h'. split; [done|]. split; [done|]. split; [done|]. split; [done|].
  split; [|split].
  - destruct (Hcells indices Hin) as (bit & Hget & _).
    now rewrite bool_decide_eq_true_2 in Hget.
  - intros cell Hcell Hne.
    destruct (Hcells cell) as (bit & Hget & HM & _);
      [rewrite HS; now apply inRange_grown|].
    exists bit. split; [now apply HM|]. now rewrite bool_decide_eq_false_2 in Hget.
  - intros cell Hcell Hnew Hne.
    destruct (Hcells cell Hcell) as (bit & Hget & _ & Hfalse).
    rewrite bool_decide_eq_false_2 in Hget by done. now rewrite <- (Hfalse Hnew).
Qed.

End Growth.

(** ** The first set on an empty matrix *)

Section FirstSet.

Lemma singleton_list {A} (l : list A) (a : A) :
  NoDup l → (∀ x, x ∈ l ↔ x = a) → l = [a].
Proof.
  intros Hnd Hiff. destruct l as [|x l].
  - assert (Ha : a ∈ []) by now apply Hiff. now apply elem_of_nil in Ha.
  - assert (x = a) as -> by (apply Hiff; left).
    f_equal. apply elem_of_nil_inv. intros y Hy.
    apply list.NoDup_cons in Hnd as [Hnotin _].
    assert (y = a) as -> by (apply Hiff; now right). done.
Qed.

Lemma empty_extents_no_cell n (cell : Indices) : (0 < n)%nat → ¬ inRange (replicate n 0) cell.
Proof.
  destruct n; [lia|]. intros _ Hin. cbn in Hin.
  inversion Hin as [|s c ss cs Hc _]; subst. lia.
Qed.

Lemma grown_from_empty n (indices : Indices) :
  length indices = n → Forall (λ i, 0 ≤ i) indices →
  zip_with (λ s i, Z.max s (i + 1)) (replicate n 0) indices = map (λ i, i + 1) indices.
Proof.
  intros <- Hi. induction Hi as [|i indices Hi _ IH]; cbn; [done|].
  rewrite IH. f_equal. lia.
Qed.

(** X8: [fromDimension(n).set(indices, true)] for indices without a negative
    component: the matrix grows from nothing to the extents
    [indices[d] + 1], and the requested cell is its only set cell. *)
Theorem first_set_on_empty fuel (dimension : Z) (indices : Indices) h :
  0 < dimension < 2 ^ 32 → Z.of_nat (length indices) = dimension →
  Forall (λ i, 0 ≤ i) indices →
  ∃ M h1 R h2,
    fromDimension dimension h = Ret (M, h1) ∧
    set (S (S fuel)) M indices true h1 = Ret (R, h2) ∧
    size R = map (λ i, i + 1) indices ∧
    get R indices h2 = Ret true ∧
    list_ R true h2 = Ret [indices] ∧
    preserved h h2.
Proof.
  intros Hd Hlen Hnn.
  set (n := Z.to_nat dimension).
  assert (Hn : (0 < n)%nat) by (unfold n; lia).
  assert (Hz : Forall (λ s, 0 ≤ s) (replicate n 0)) by (apply Forall_replicate; lia).
  set (M := mkMatrix (replicate n 0) (length h)).
  set (zeros := replicate (bitbybit.storageBits (sizeToBitLength (replicate n 0))) false).
  assert (EM : fromDimension dimension h = Ret (M, h ++ [zeros])).
  { unfold fromDimension. destruct (Z.ltb_spec dimension 0); [lia|].
    destruct (Z.leb_spec (2 ^ 32) dimension); [lia|]. exact (new_Ret _ h Hz). }
  assert (Hv : valid (h ++ [zeros]) M).
  { split; [done|]. exists zeros. split; [apply lookup_fresh|apply length_replicate]. }
  assert (Hl : length indices = length (size M))
    by (cbn [size M]; rewrite length_replicate; unfold n; lia).
  destruct (set_nonnegative_cells fuel (h ++ [zeros]) M indices true Hv Hl Hnn)
    as (R & h2 & E & HS & HV & HP & Hcells).
  assert (Hin : inRange (size R) indices).
  { rewrite HS, <- grown_size_nonneg by done. now apply nonneg_inRange_grown. }
  assert (Hget : get R indices h2 = Ret true).
  { destruct (Hcells indices Hin) as (bit & Hg & _). now rewrite bool_decide_eq_true_2 in Hg. }
  exists M, (h ++ [zeros]), R, h2. split; [done|]. split; [done|].
  split; [rewrite HS; apply grown_from_empty; [unfold n; lia|done]|].
  split; [done|]. split; [|eapply preserved_trans; [apply preserved_snoc|exact HP]].
  destruct (HV) as [_ (b & Hb & _)].
  rewrite (list__listed h2 R b true HV Hb). f_equal.
  apply singleton_list; [now apply (listed_NoDup h2)|].
  intros cell. rewrite (listed_iff h2 R b true cell HV Hb). split.
  - intros [Hcell Hset]. destruct (Hcells cell Hcell) as (bit & Hg & _ & Hnew).
    case_bool_decide as Ec; [done|].
    rewrite (Hnew (empty_extents_no_cell n cell Hn)) in Hg.
    now pose proof (get_agree _ _ _ _ _ Hset Hg).
  - now intros ->.
Qed.

End FirstSet.

(** ** The bitLength getter and its cache *)

Section Getter.

Lemma bitLengthReads_cached cached (sizes : list Size) :
  cached ≠ 0 → bitLengthReads (Some cached) sizes = replicate (length sizes) cached.
Proof.
  intros Hc. induction sizes as [|size sizes IH]; [done|].
  cbn [bitLengthReads length replicate]. unfold bitLengthGetter.
  destruct (Z.eqb_spec cached 0); [done|]. now rewrite IH.
Qed.

Lemma bitLengthReads_empty cache (empties : list Size) (sizes : list Size) :
  cache = None ∨ cache = Some 0 →
  Forall (λ size, sizeToBitLength size = 0) empties →
  bitLengthReads cache (empties ++ sizes)
  = replicate (length empties) 0 ++ bitLengthReads (Some 0) sizes
    ∨ empties = [] ∧ cache = None.
Proof.
  intros Hcache Hempty. revert cache Hcache.
  induction Hempty as [|size empties Hsize _ IH]; intros cache Hcache.
  - destruct Hcache as [->| ->]; [now right|now left].
  - left. cbn [app bitLengthReads length replicate].
    assert (E : bitLengthGetter cache size = (0, Some 0))
      by (unfold bitLengthGetter; rewrite Hsize; destruct Hcache as [->| ->]; reflexivity).
    rewrite E. f_equal.
    destruct (IH (Some 0)) as [->|[-> [=]]]; [now right|done].
Qed.

(** X12: The getter keeps the first non-zero bit count it computes.  Reads
    made while the product of the extents is 0 compute it again each time
    (0 is falsy); the first read that finds a non-zero product stores it;
    every later read returns the stored value without looking at the
    extents.  On extents that stay as they are, every read therefore
    returns their product. *)
Theorem bitLength_first_nonzero_kept (empties : list Size) (size : Size) (later : list Size) :
  Forall (λ size, sizeToBitLength size = 0) empties →
  sizeToBitLength size ≠ 0 →
  bitLengthReads None (empties ++ size :: later)
  = replicate (length empties) 0 ++ replicate (S (length later)) (sizeToBitLength size)
  ∧ bitLengthReads None empties = replicate (length empties) 0
  ∧ ∀ n, bitLengthReads None (replicate n size) = replicate n (sizeToBitLength size).
Proof.
  intros Hempty Hsize.
  assert (Hfirst : ∀ cache sizes, cache = None ∨ cache = Some 0 →
            bitLengthReads cache (size :: sizes)
            = replicate (S (length sizes)) (sizeToBitLength size)).
  { intros cache sizes Hcache. cbn [bitLengthReads replicate].
    assert (E : bitLengthGetter cache size = (sizeToBitLength size, Some (sizeToBitLength size)))
      by (unfold bitLengthGetter; destruct Hcache as [->| ->]; reflexivity).
    rewrite E. f_equal. now apply bitLengthReads_cached. }
  split; [|split].
  - destruct (bitLengthReads_empty None empties (size :: later)) as [->|[-> _]];
      [now left|done| |].
    + f_equal. apply Hfirst. now right.
    + apply Hfirst. now left.
  - pose proof (bitLengthReads_empty None empties []) as H. rewrite !app_nil_r in H.
    destruct H as [->|[-> _]]; [now left|done|done|done].
  - intros [|n]; [done|]. cbn [replicate]. rewrite Hfirst by now left.
    now rewrite length_replicate.
Qed.

End Getter.

(** ** listBit on any matrix *)

Section ListBitCount.

Lemma listBit_collect_any (h : heap) M (b : Buffer) m :
  ∀ k fuel,
    h !! buffer M = Some b → (length b - k = m)%nat → (m < fuel)%nat →
    listBit_collect fuel M k h
    = map (λ j, (default false (b !! j), offsetToIndices (size M) (Z.of_nat j)))
          (seq k (Nat.min (length b - k) (Nat.max 1 (Z.to_nat (bitLength M) - k)))).
Proof.
  induction m as [|m IH]; intros k fuel Hb Hm Hfuel; (destruct fuel as [|fuel]; [lia|]).
  - cbn [listBit_collect]. unfold listBit_yield, bitbybit.listBit. rewrite Hb.
    rewrite (lookup_ge_None_2 b k) by lia. now rewrite Hm.
  - assert (Hk : (k < length b)%nat) by lia.
    destruct (lookup_lt_is_Some_2 b k Hk) as [bit Hbit].
    cbn [listBit_collect]. unfold listBit_yield, bitbybit.listBit. rewrite Hb, Hbit.
    unfold listBit_break.
    destruct (Z.leb_spec (bitLength M) (Z.of_nat (S k))) as [Hstop|Hgo].
    + replace (Nat.min (length b - k) (Nat.max 1 (Z.to_nat (bitLength M) - k))) with 1%nat by lia.
      cbn. now rewrite Hbit.
    + rewrite (IH (S k) fuel) by (done || lia).
      replace (Nat.min (length b - k) (Nat.max 1 (Z.to_nat (bitLength M) - k)))
        with (S (Nat.min (length b - S k) (Nat.max 1 (Z.to_nat (bitLength M) - S k)))) by lia.
      cbn [seq map]. now rewrite Hbit.
Qed.

(** X9: On any matrix, also one built by the constructor around a buffer that
    does not match its extents, [listBit] yields the leading bits of the
    buffer: as many as the bit count says, but at least one (the bound is
    tested after the yield) and never more than the buffer holds.  Where
    every extent is positive, entry [k] carries the indices of offset [k]. *)
Theorem listBit_count (h : heap) M (b : Buffer) :
  h !! buffer M = Some b →
  ∃ entries,
    listBit M h = Ret entries ∧
    length entries = Nat.min (length b) (Nat.max 1 (Z.to_nat (bitLength M))) ∧
    ∀ k, (k < length entries)%nat →
      ∃ bit indices,
        b !! k = Some bit ∧ entries !! k = Some (bit, indices) ∧
        (Forall (λ s, 0 < s) (size M) → indices = offsetToIndices (size M) (Z.of_nat k)).
Proof.
  intros Hb.
  exists (map (λ j, (default false (b !! j), offsetToIndices (size M) (Z.of_nat j)))
            (seq 0 (Nat.min (length b) (Nat.max 1 (Z.to_nat (bitLength M)))))).
  split.
  { unfold listBit, storageOf. rewrite Hb. cbn [default]. f_equal.
    rewrite (listBit_collect_any h M b (length b) 0); [|done|lia|cbn; lia].
    now rewrite !Nat.sub_0_r. }
  split; [now rewrite length_map, length_seq|].
  intros k Hk. rewrite length_map, length_seq in Hk.
  destruct (lookup_lt_is_Some_2 b k) as [bit Hbit]; [lia|].
  exists bit, (offsetToIndices (size M) (Z.of_nat k)). split; [done|]. split; [|done].
  rewrite list_lookup_fmap, lookup_seq_lt by done. cbn. now rewrite Hbit.
Qed.

End ListBitCount.

(** ** Pasting twice *)

Section PasteTwice.

Lemma pasted_again sz psize pos (pb d : Buffer) ks :
  (∀ k, k ∈ ks → d !! landing sz psize pos k = Some (default false (pb !! k))) →
  pasted sz psize pos pb d ks = d.
Proof.
  induction ks as [|k ks IH]; intros Hks; [done|].
  change (pasted sz psize pos pb d (k :: ks))
    with (pasted sz psize pos pb (<[landing sz psize pos k := default false (pb !! k)]> d) ks).
  rewrite list_insert_id by (apply Hks; left).
  apply IH. intros j Hj. apply Hks. now right.
Qed.

(** X10: Pasting the same patch at the same position a second time changes
    nothing: the second result equals the first. *)
Theorem paste_idempotent h this patch pos :
  valid h this → valid h patch → pasteFits this patch pos →
  ∃ A h1 B h2,
    paste this patch pos h = Ret (A, h1) ∧ paste A patch pos h1 = Ret (B, h2) ∧
    isSameAs B A h2 = Ret true ∧ sameCells h2 B A.
Proof.
  intros Hthis Hpatch Hfit.
  destruct (Hthis) as [Hs (d & Hd & _)]. destruct (Hpatch) as [_ (pb & Hpb & _)].
  set (ks := seq 0 (Z.to_nat (bitLength patch))).
  set (dA := pasted (size this) (size patch) pos pb d ks).
  set (A := mkMatrix (size this) (length h)). set (h1 := h ++ [dA]).
  assert (EA : paste this patch pos h = Ret (A, h1)) by now apply paste_Ret.
  assert (HvA : valid h1 A) by now apply valid_paste_result.
  assert (Hpatch1 : valid h1 patch) by (eapply valid_preserved; [apply preserved_snoc|done]).
  assert (HdA : h1 !! buffer A = Some dA) by apply lookup_fresh.
  assert (Hpb1 : h1 !! buffer patch = Some pb) by now apply lookup_app_l_Some.
  assert (Hagain : pasted (size A) (size patch) pos pb dA ks = dA).
  { apply pasted_again. intros k Hk. unfold dA. cbn [size A].
    apply pasted_lookup_landing; [done| |].
    - intros i j Hi Hj. apply elem_of_seq in Hi, Hj.
      apply (landing_inj this patch pos h); [done|done|lia..].
    - apply elem_of_seq in Hk.
      destruct (landing_inRange this patch pos h k Hpatch Hfit) as (_ & _ & Hr); [lia|].
      pose proof (inRange_offset _ _ Hr). pose proof (valid_storage _ _ _ Hthis Hd).
      unfold landing, bitLength in *. lia. }
  set (B := mkMatrix (size A) (length h1)). set (h2 := h1 ++ [dA]).
  assert (EB : paste A patch pos h1 = Ret (B, h2)).
  { rewrite (paste_Ret h1 A patch pos dA pb HvA Hpatch1 Hfit HdA Hpb1).
    fold ks. now rewrite Hagain. }
  assert (Hsame : sameCells h2 B A).
  { split; [done|]. intros cell Hcell. cbn [size B A] in Hcell.
    destruct (get_inRange h1 A dA cell Hs HdA (valid_storage _ _ _ HvA HdA) Hcell)
      as (bit & Hbit & Hget).
    exists bit. split; [|eapply get_preserved; [apply preserved_snoc|exact Hget]].
    pose proof (inRange_offset _ _ Hcell).
    unfold get. eapply getBit_Ret; [apply lookup_fresh|cbn [size B A]; lia|exact Hbit]. }
  exists A, h1, B, h2. split; [done|]. split; [done|]. split; [|done].
  unfold isSameAs. apply isSame_sameCells; [exact Hs|done].
Qed.

End PasteTwice.

(** ** Encoding again *)

Section EncodeAgain.
Context {codec : VlqCodec}.

Lemma take_inserts_0 (bits zeros : Buffer) :
  (length bits ≤ length zeros)%nat →
  take (length bits) (list_inserts 0 bits zeros) = bits.
Proof.
  intros Hlen. apply list_eq. intros k.
  destruct (decide (k < length bits)%nat) as [Hk|Hk].
  - rewrite lookup_take_lt by done.
    rewrite list_lookup_inserts by lia. now rewrite Nat.sub_0_r.
  - rewrite lookup_take_ge by lia. symmetry. apply lookup_ge_None_2. lia.
Qed.

(** X11: Encoding is stable under a round trip: for a matrix without a run
    of more than 53 set bits, the matrix that [decode] returns for its
    encoding encodes to the very same bytes. *)
Theorem encode_stable h M :
  valid h M → Forall exactRun (setRunsOf h M) →
  ∃ encoded M' h',
    encode M h = Ret encoded ∧ decode encoded h = Ret (M', h') ∧
    encode M' h' = Ret encoded.
Proof.
  intros Hv Hshort. destruct (Hv) as [Hs (b & Hb & Hbl)].
  pose proof (valid_bitLength _ _ Hv) as HN. pose proof (valid_storage _ _ _ Hv Hb) as Hst.
  pose proof (setRunsOf_consumed h M b Hb Hshort) as Hexact.
  set (N := Z.to_nat (bitLength M)) in *. set (bits := take N b) in *.
  assert (Hbits : length bits = N) by (unfold bits; rewrite length_take; lia).
  set (runLengths := bitbybit.runs false 0 bits) in *.
  destruct (consumed_runs (bitLength M) bits false 0 0) as [Hcexp Hcsum]; [lia|lia|].
  fold runLengths in Hcexp, Hcsum.
  change (replicate (Z.to_nat 0) false ++ bits) with bits in Hcexp.
  set (zeros := replicate (bitbybit.storageBits (sizeToBitLength (size M))) false).
  set (M' := mkMatrix (size M) (length h)). set (h' := h ++ [list_inserts 0 bits zeros]).
  assert (Hdec : decode (vlq_encode (Z.of_nat (length (size M)) :: size M ++ runLengths)) h
                 = Ret (M', h')).
  { unfold h', M'. rewrite <- Hcexp. apply decode_Ret; [|done|apply runs_nonneg; lia|done|].
    - apply vlq_decode_encode. constructor; [lia|].
      apply Forall_app. split; [done|apply runs_nonneg; lia].
    - fold (bitLength M). rewrite Hcsum, Hbits. pose proof (storageBits_ge _ HN).
      unfold N in *. lia. }
  assert (Hd' : h' !! buffer M' = Some (list_inserts 0 bits zeros)) by apply lookup_fresh.
  assert (HvM' : valid h' M').
  { split; [done|]. eexists. split; [exact Hd'|].
    rewrite length_inserts. apply length_replicate. }
  eexists _, M', h'. split; [exact (encode_Ret h M b Hv Hb)|]. fold N bits runLengths.
  split; [exact Hdec|].
  rewrite (encode_Ret h' M' _ HvM' Hd'). do 4 f_equal.
  change (bitLength M') with (bitLength M). fold N. rewrite <- Hbits at 1.
  unfold runLengths. f_equal.
  apply take_inserts_0. unfold zeros. rewrite length_replicate, Hbits.
  fold (bitLength M). rewrite <- Hbl. exact Hst.
Qed.

End EncodeAgain.

(** ** list after set *)

Section ListAfterSet.

(** X7: After [set] on indices without a negative component, [list(true)]
    yields the cells it yielded before, with the addressed cell added when
    [state] is true and left out when it is false. *)
Theorem set_updates_list fuel h M indices state :
  valid h M → length indices = length (size M) → Forall (λ i, 0 ≤ i) indices →
  ∃ R h' before after,
    set (S (S fuel)) M indices state h = Ret (R, h') ∧
    list_ M true h = Ret before ∧ list_ R true h' = Ret after ∧
    ∀ cell, cell ∈ after ↔
      (cell = indices ∧ state = true) ∨ (cell ≠ indices ∧ cell ∈ before).
Proof.
  intros Hv Hl Hnn.
  destruct (set_nonnegative_cells fuel h M indices state Hv Hl Hnn)
    as (R & h' & E & HS & HV & HP & Hcells).
  destruct (Hv) as [_ (b & Hb & _)]. destruct (HV) as [_ (bR & HbR & _)].
  assert (Hin : inRange (size R) indices).
  { rewrite HS, <- grown_size_nonneg by done. now apply nonneg_inRange_grown. }
  eexists R, h', _, _. split; [done|].
  split; [exact (list__listed h M b true Hv Hb)|].
  split; [exact (list__listed h' R bR true HV HbR)|].
  intros cell. rewrite (listed_iff h' R bR true cell HV HbR), (listed_iff h M b true cell Hv Hb).
  split.
  - intros [Hcell Hset]. destruct (Hcells cell Hcell) as (bit & Hget & Hold & Hnew).
    pose proof (get_agree _ _ _ _ _ Hset Hget) as Hbit.
    case_bool_decide as Ec; [left; done|]. right. split; [done|]. subst bit.
    destruct (decide (Forall2 (λ s i, 0 ≤ i < s) (size M) cell)) as [HcellM|HcellM].
    + split; [exact HcellM|now apply Hold].
    + now specialize (Hnew HcellM).
  - intros [[-> ->]|[Hne [HcellM HgetM]]].
    + split; [done|]. destruct (Hcells indices Hin) as (bit & Hget & _).
      now rewrite bool_decide_eq_true_2 in Hget.
    + assert (Hcell : inRange (size R) cell) by (rewrite HS; now apply inRange_grown).
      split; [done|]. destruct (Hcells cell Hcell) as (bit & Hget & Hold & _).
      rewrite bool_decide_eq_false_2 in Hget by done.
      now rewrite (get_agree _ _ _ _ _ HgetM (Hold HcellM)).
Qed.

End ListAfterSet.

(** ** Further concrete inputs *)

Section MoreSamples.

Ltac sample_valid :=
  split; [repeat constructor; lia | eexists; split; reflexivity].

Ltac sample_inRange := repeat constructor; lia.

(** Setting the cells [0,0] and [1,1] of the 2×2 sample in both orders. *)
Lemma set_commutes_witness :
  valid sampleStore checker ∧ inRange (size checker) [0; 0] ∧
  inRange (size checker) [1; 1] ∧ [0; 0] ≠ ([1; 1] : Indices) ∧
  ∃ A1 h1 A h2 B1 h3 B h4,
    set 1 checker [0; 0] true sampleStore = Ret (A1, h1) ∧ set 1 A1 [1; 1] true h1 = Ret (A, h2) ∧
    set 1 checker [1; 1] true h2 = Ret (B1, h3) ∧ set 1 B1 [0; 0] true h3 = Ret (B, h4) ∧
    isSameAs A B h4 = Ret true.
Proof.
  assert (Hv : valid sampleStore checker) by sample_valid.
  assert (Hi : inRange (size checker) [0; 0]) by sample_inRange.
  assert (Hj : inRange (size checker) [1; 1]) by sample_inRange.
  assert (Hne : [0; 0] ≠ ([1; 1] : Indices)) by discriminate.
  split; [exact Hv|]. split; [exact Hi|]. split; [exact Hj|]. split; [exact Hne|].
  destruct (set_commutes 0 sampleStore checker [0; 0] [1; 1] true true Hv Hi Hj Hne)
    as (A1 & h1 & A & h2 & B1 & h3 & B & h4 & E1 & E2 & E3 & E4 & Hsame & _).
  exists A1, h1, A, h2, B1, h3, B, h4. repeat split; assumption.
Defined.

(** Writing false and then true to the cell [0,0] of the 2×2 sample. *)
Lemma set_overwrites_witness :
  valid sampleStore checker ∧ inRange (size checker) [0; 0] ∧
  ∃ A1 h1 A h2 B h3,
    set 1 checker [0; 0] false sampleStore = Ret (A1, h1) ∧ set 1 A1 [0; 0] true h1 = Ret (A, h2) ∧
    set 1 checker [0; 0] true h2 = Ret (B, h3) ∧ isSameAs A B h3 = Ret true.
Proof.
  assert (Hv : valid sampleStore checker) by sample_valid.
  assert (Hi : inRange (size checker) [0; 0]) by sample_inRange.
  split; [exact Hv|]. split; [exact Hi|].
  destruct (set_overwrites 0 sampleStore checker [0; 0] false true Hv Hi)
    as (A1 & h1 & A & h2 & B & h3 & E1 & E2 & E3 & Hsame & _).
  exists A1, h1, A, h2, B, h3. repeat split; assumption.
Defined.

(** Setting the cell [1,0] of the 2×2 sample, which is set already. *)
Lemma set_same_value_witness :
  valid sampleStore checker ∧ inRange (size checker) [1; 0] ∧
  get checker [1; 0] sampleStore = Ret true ∧
  ∃ R h', set 1 checker [1; 0] true sampleStore = Ret (R, h') ∧ buffer R ≠ buffer checker ∧
          isSameAs R checker h' = Ret true.
Proof.
  assert (Hv : valid sampleStore checker) by sample_valid.
  assert (Hi : inRange (size checker) [1; 0]) by sample_inRange.
  assert (Hg : get checker [1; 0] sampleStore = Ret true) by reflexivity.
  split; [exact Hv|]. split; [exact Hi|]. split; [exact Hg|].
  destruct (set_same_value 0 sampleStore checker [1; 0] true Hv Hi Hg)
    as (R & h' & E & Hfresh & Hsame & _).
  exists R, h'. repeat split; assumption.
Defined.

(** The set cells of the 2×2 sample. *)
Lemma list_exact_witness :
  valid sampleStore checker ∧
  ∃ cells, list_ checker true sampleStore = Ret cells ∧ NoDup cells ∧
           Sorted.StronglySorted Z.lt (map (indicesToOffset (size checker)) cells).
Proof.
  assert (Hv : valid sampleStore checker) by sample_valid.
  split; [exact Hv|].
  destruct (list_exact sampleStore checker true Hv) as (cells & E & _ & Hnd & Hsorted).
  exists cells. repeat split; assumption.
Defined.

(** A fresh 2×3 matrix. *)
Lemma fromSize_all_false_witness :
  Forall (λ s, 0 ≤ s) [2; 3] ∧
  ∃ M h', fromSize [2; 3] [] = Ret (M, h') ∧ size M = [2; 3] ∧ list_ M true h' = Ret [].
Proof.
  assert (Hs : Forall (λ s, 0 ≤ s) [2; 3]) by (repeat constructor; lia).
  split; [exact Hs|].
  destruct (fromSize_all_false [2; 3] [] Hs) as (M & h' & E & HS & _ & _ & _ & Hlist).
  exists M, h'. repeat split; assumption.
Defined.

(** Setting the cell [3,0] of the 2×2 sample, which lies beyond its bounds. *)
Lemma set_nonnegative_witness :
  valid sampleStore checker ∧ length ([3; 0] : Indices) = length (size checker) ∧
  Forall (λ i, 0 ≤ i) [3; 0] ∧
  ∃ R h', set 2 checker [3; 0] true sampleStore = Ret (R, h') ∧
          size R = zip_with (λ s i, Z.max s (i + 1)) (size checker) [3; 0] ∧
          get R [3; 0] h' = Ret true.
Proof.
  assert (Hv : valid sampleStore checker) by sample_valid.
  assert (Hl : length ([3; 0] : Indices) = length (size checker)) by reflexivity.
  assert (Hnn : Forall (λ i, 0 ≤ i) [3; 0]) by (repeat constructor; lia).
  split; [exact Hv|]. split; [exact Hl|]. split; [exact Hnn|].
  destruct (set_nonnegative 0 sampleStore checker [3; 0] true Hv Hl Hnn)
    as (R & h' & E & HS & _ & _ & Hget & _).
  exists R, h'. repeat split; assumption.
Defined.

(** [fromDimension(2).set([1,2], true)]. *)
Lemma first_set_on_empty_witness :
  0 < 2 < 2 ^ 32 ∧ Z.of_nat (length ([1; 2] : Indices)) = 2 ∧ Forall (λ i, 0 ≤ i) [1; 2] ∧
  ∃ M h1 R h2,
    fromDimension 2 [] = Ret (M, h1) ∧ set 2 M [1; 2] true h1 = Ret (R, h2) ∧
    size R = [2; 3] ∧ list_ R true h2 = Ret [[1; 2]].
Proof.
  assert (Hd : 0 < 2 < 2 ^ 32) by (vm_compute; split; reflexivity).
  assert (Hl : Z.of_nat (length ([1; 2] : Indices)) = 2) by reflexivity.
  assert (Hnn : Forall (λ i, 0 ≤ i) [1; 2]) by (repeat constructor; lia).
  split; [exact Hd|]. split; [exact Hl|]. split; [exact Hnn|].
  destruct (first_set_on_empty 0 2 [1; 2] [] Hd Hl Hnn)
    as (M & h1 & R & h2 & E1 & E2 & HS & _ & Hlist & _).
  exists M, h1, R, h2. repeat split; assumption.
Defined.

(** The 2×2 sample: four entries although its buffer has eight bits. *)
Lemma listBit_count_witness :
  sampleStore !! buffer checker
    = Some [false; true; true; false; false; false; false; false] ∧
  ∃ entries, listBit checker sampleStore = Ret entries ∧ length entries = 4%nat.
Proof.
  assert (Hb : sampleStore !! buffer checker
               = Some [false; true; true; false; false; false; false; false]) by reflexivity.
  split; [exact Hb|].
  destruct (listBit_count sampleStore checker _ Hb) as (entries & E & Hlen & _).
  exists entries. split; [exact E|exact Hlen].
Defined.

(** Pasting the 1×1 patch at [1,1] into the 2×2 sample, twice. *)
Lemma paste_idempotent_witness :
  valid sampleStore checker ∧ valid sampleStore dot ∧ pasteFits checker dot [1; 1] ∧
  ∃ A h1 B h2,
    paste checker dot [1; 1] sampleStore = Ret (A, h1) ∧ paste A dot [1; 1] h1 = Ret (B, h2) ∧
    isSameAs B A h2 = Ret true.
Proof.
  assert (Hv : valid sampleStore checker) by sample_valid.
  assert (Hd : valid sampleStore dot) by sample_valid.
  assert (Hfit : pasteFits checker dot [1; 1]).
  { intros indices Hin. inversion Hin as [|s i ss il Hi Hrest]; subst.
    inversion Hrest as [|s' j ss' jl Hj Hnil]; subst. inversion Hnil; subst.
    exists [i + 1; j + 1]. split; [reflexivity|]. repeat constructor; lia. }
  split; [exact Hv|]. split; [exact Hd|]. split; [exact Hfit|].
  destruct (paste_idempotent sampleStore checker dot [1; 1] Hv Hd Hfit)
    as (A & h1 & B & h2 & E1 & E2 & Hsame & _).
  exists A, h1, B, h2. repeat split; assumption.
Defined.

(** Encoding the 2×2 sample, decoding, and encoding again, with the varint
    codec. *)
Lemma encode_stable_witness :
  valid sampleStore checker ∧ Forall exactRun (setRunsOf sampleStore checker) ∧
  ∃ encoded M' h',
    encode (codec := varint) checker sampleStore = Ret encoded ∧
    decode (codec := varint) encoded sampleStore = Ret (M', h') ∧
    encode (codec := varint) M' h' = Ret encoded.
Proof.
  assert (Hv : valid sampleStore checker) by sample_valid.
  assert (Hshort : Forall exactRun (setRunsOf sampleStore checker))
    by (repeat constructor; unfold exactRun; lia).
  split; [exact Hv|]. split; [exact Hshort|].
  exact (encode_stable (codec := varint) sampleStore checker Hv Hshort).
Defined.

(** Clearing the cell [1,0] of the 2×2 sample. *)
Lemma set_updates_list_witness :
  valid sampleStore checker ∧ length ([1; 0] : Indices) = length (size checker) ∧
  Forall (λ i, 0 ≤ i) [1; 0] ∧
  ∃ R h' before after,
    set 2 checker [1; 0] false sampleStore = Ret (R, h') ∧
    list_ checker true sampleStore = Ret before ∧ list_ R true h' = Ret after ∧
    ([1; 0] : Indices) ∉ after.
Proof.
  assert (Hv : valid sampleStore checker) by sample_valid.
  assert (Hl : length ([1; 0] : Indices) = length (size checker)) by reflexivity.
  assert (Hnn : Forall (λ i, 0 ≤ i) [1; 0]) by (repeat constructor; lia).
  split; [exact Hv|]. split; [exact Hl|]. split; [exact Hnn|].
  destruct (set_updates_list 0 sampleStore checker [1; 0] false Hv Hl Hnn)
    as (R & h' & before & after & E & Eb & Ea & Hiff).
  exists R, h', before, after. split; [exact E|]. split; [exact Eb|]. split; [exact Ea|].
  intros Hin. apply Hiff in Hin as [[_ Hstate]|[Hne _]]; [discriminate|now apply Hne].
Defined.

(** Five reads while the extents go from [0,3] over [2,3] to [5,5]. *)
Lemma bitLength_first_nonzero_kept_witness :
  Forall (λ size, sizeToBitLength size = 0) [[0; 0]; [0; 3]] ∧ sizeToBitLength [2; 3] ≠ 0 ∧
  bitLengthReads None ([[0; 0]; [0; 3]] ++ [2; 3] :: [[5; 5]; [0; 0]]) = [0; 0; 6; 6; 6].
Proof.
  assert (He : Forall (λ size, sizeToBitLength size = 0) [[0; 0]; [0; 3]])
    by (repeat constructor).
  assert (Hs : sizeToBitLength [2; 3] ≠ 0) by (vm_compute; discriminate).
  split; [exact He|]. split; [exact Hs|].
  exact (proj1 (bitLength_first_nonzero_kept [[0; 0]; [0; 3]] [2; 3] [[5; 5]; [0; 0]] He Hs)).
Defined.

End MoreSamples.
